(** * go-ll-player: a playlist player on a doubly linked list

    Shallow embedding of [player.go].  The Go program keeps its playlist in
    heap-allocated [playerNode]s linked by [next]/[prev] pointers, guards the
    [playerImpl] struct with a mutex, and runs playback in a goroutine that
    waits in a four-way [select].  Here:

    - pointers are addresses into a finite map of heap cells;
    - [time.Duration] is a 64-bit signed count of nanoseconds, a [Z] whose
      wrap-around is written out where the program does arithmetic;
    - methods are computations in a small state monad whose outcomes are a
      normal return, a run-time panic (nil dereference) or a goroutine that
      is blocked (on the mutex or on an unbuffered channel);
    - the playback goroutine is the record of what its closure captured
      while it is parked in [select]; the goroutines parked on the two
      channels of the struct form the receive queue of those channels;
    - a goroutine that receives a message from a method is scheduled while
      the method runs on: the writes of its case reach the player after
      those the method makes before it returns. *)

From stdpp Require Import base gmap list strings pretty.
From Stdlib Require Import ZArith Lia.

Local Open Scope Z_scope.

(** ** Machine integers and time *)

Module Int64.

Definition min_int : Z := - 2 ^ 63.
Definition max_int : Z := 2 ^ 63 - 1.

(** Two's complement wrap-around of a 64-bit signed integer. *)
Definition wrap (z : Z) : Z := (z + 2 ^ 63) `mod` 2 ^ 64 - 2 ^ 63.

Definition add (a b : Z) : Z := wrap (a + b).
Definition sub (a b : Z) : Z := wrap (a - b).

Definition in_range (z : Z) : Prop := min_int ≤ z ≤ max_int.

End Int64.

Module Time.

(** [time.Duration] counts nanoseconds. *)
Definition Millisecond : Z := 1000000.
Definition Second : Z := 1000000000.

(** [time.Since(t)] read at the instant [now]: the difference of the two
    clock readings, saturated to the range of a [Duration] as the standard
    library documents for [Time.Sub]. *)
Definition Since (t now : Z) : Z :=
  Z.max Int64.min_int (Z.min Int64.max_int (now - t)).

End Time.

(** ** Data *)

(** [type Song struct { Name string; Duration time.Duration }] *)
Record Song := mkSong { Name : string; Duration : Z }.

(** The zero value [Song{}]. *)
Definition zeroSong : Song := mkSong "" 0.

(** Go's [error]: [None] is [nil], [Some msg] an error with that message. *)
Definition error : Type := option string.
Definition nil : error := None.

(** Addresses of heap-allocated nodes; a nil pointer is [None]. *)
Definition ptr : Type := positive.

(** [type playerNode struct { song *Song; next, prev *playerNode }].  Each
    node holds the address of a private copy of the song ([&song] of the
    by-value parameter of [AddSong]), so the copy is stored in the node. *)
Record playerNode := mkNode {
  song : Song;
  next : option ptr;
  prev : option ptr;
}.

(** [context.Context] values are told apart by an identity. *)
Definition Context : Type := nat.

(** The goroutine started by [Play], parked in its [select]: the variables
    its closure captured and the argument [time.After] was armed with. *)
Record timer := mkTimer {
  t_ctx : Context;
  startPlaying : Z;
  wait : Z;
}.

(** [type playerImpl struct].  [nodes] is the part of the heap that holds
    the playlist nodes.  [mu] is [true] while the mutex is held.  The two
    unbuffered channels [pauseCh] and [stopCh] carry no data; what matters
    is who is ready to receive on them, and every playback goroutine waits
    on both at once, so both channels share one receive queue [parked]
    (oldest first, the order in which the run time serves receivers). *)
Record playerImpl := mkPlayer {
  nodes : gmap ptr playerNode;
  mu : bool;
  head : option ptr;
  tail : option ptr;
  current : option ptr;
  parked : list timer;
  isPlaying : bool;
  playedTime : Z;
}.

Definition set_nodes (h : gmap ptr playerNode) (p : playerImpl) : playerImpl :=
  mkPlayer h (mu p) (head p) (tail p) (current p) (parked p) (isPlaying p) (playedTime p).
Definition set_mu (b : bool) (p : playerImpl) : playerImpl :=
  mkPlayer (nodes p) b (head p) (tail p) (current p) (parked p) (isPlaying p) (playedTime p).
Definition set_head (a : option ptr) (p : playerImpl) : playerImpl :=
  mkPlayer (nodes p) (mu p) a (tail p) (current p) (parked p) (isPlaying p) (playedTime p).
Definition set_tail (a : option ptr) (p : playerImpl) : playerImpl :=
  mkPlayer (nodes p) (mu p) (head p) a (current p) (parked p) (isPlaying p) (playedTime p).
Definition set_current (a : option ptr) (p : playerImpl) : playerImpl :=
  mkPlayer (nodes p) (mu p) (head p) (tail p) a (parked p) (isPlaying p) (playedTime p).
Definition set_parked (q : list timer) (p : playerImpl) : playerImpl :=
  mkPlayer (nodes p) (mu p) (head p) (tail p) (current p) q (isPlaying p) (playedTime p).
Definition set_isPlaying (b : bool) (p : playerImpl) : playerImpl :=
  mkPlayer (nodes p) (mu p) (head p) (tail p) (current p) (parked p) b (playedTime p).
Definition set_playedTime (d : Z) (p : playerImpl) : playerImpl :=
  mkPlayer (nodes p) (mu p) (head p) (tail p) (current p) (parked p) (isPlaying p) d.

(** ** Outcomes and the method monad *)

(** What running a piece of the program on a player leads to. *)
Inductive outcome (A : Type) : Type :=
  | Ret (a : A) (p : playerImpl)   (* returned [a], leaving the player as [p] *)
  | Panic                          (* nil pointer dereference *)
  | Blocked (p : playerImpl)       (* stuck for good on a lock or a send, player left as [p] *)
  | NoFuel.                        (* the call depth allowed to the model ran out *)
Arguments Ret {A} a p.
Arguments Panic {A}.
Arguments Blocked {A} p.
Arguments NoFuel {A}.

Definition M (A : Type) : Type := playerImpl → outcome A.

Definition ret {A} (a : A) : M A := fun p => Ret a p.

Definition bind {A B} (k : A → M B) (m : M A) : M B := fun p =>
  match m p with
  | Ret a p' => k a p'
  | Panic => Panic
  | Blocked p' => Blocked p'
  | NoFuel => NoFuel
  end.

#[global] Instance M_ret : MRet M := @ret.
#[global] Instance M_bind : MBind M := @bind.

Definition get {A} (f : playerImpl → A) : M A := fun p => Ret (f p) p.
Definition modify (f : playerImpl → playerImpl) : M unit := fun p => Ret tt (f p).
Definition panic {A} : M A := fun _ => Panic.

(** Following a pointer: [a.f] panics when [a] is nil. *)
Definition deref (a : option ptr) : M playerNode := fun p =>
  match a with
  | None => Panic
  | Some a =>
      match nodes p !! a with
      | Some nd => Ret nd p
      | None => Panic
      end
  end.

(** [p.mu.Lock()]: a second [Lock] waits for an [Unlock]. *)
Definition lock : M unit := fun p =>
  if mu p then Blocked p else Ret tt (set_mu true p).

(** [p.mu.Unlock()]. *)
Definition unlock : M unit := modify (set_mu false).

(** [defer p.mu.Unlock()] around the rest [m] of a method body. *)
Definition deferred_unlock {A} (m : M A) : M A :=
  a ← m; unlock ;; ret a.

(** ** Track construction *)

(** [func NewSong(name string, d time.Duration) (Song, error)] *)
Definition NewSong (name : string) (d : Z) : Song * error :=
  if decide (name = "") then (zeroSong, Some "song name is empty")
  else if d <? Time.Second then (zeroSong, Some "song duration is less than 1 sec")
  else (mkSong name d, nil).

(** ** Appending *)

(** [&playerNode{...}]: the allocator returns an address not in use. *)
Definition alloc (nd : playerNode) : M ptr := fun p =>
  let a := fresh (dom (nodes p)) in
  Ret a (set_nodes (<[a := nd]> (nodes p)) p).

(** Stores through a pointer: [a.next = v] and [a.prev = v] panic when [a]
    is nil. *)
Definition store_next (a v : option ptr) : M unit :=
  nd ← deref a;
  match a with
  | None => panic
  | Some a =>
      modify (fun p => set_nodes (<[a := mkNode (song nd) v (prev nd)]> (nodes p)) p)
  end.

Definition store_prev (a v : option ptr) : M unit :=
  nd ← deref a;
  match a with
  | None => panic
  | Some a =>
      modify (fun p => set_nodes (<[a := mkNode (song nd) (next nd) v]> (nodes p)) p)
  end.

(** [func (p *playerImpl) AddSong(_ context.Context, song Song) error] *)
Definition AddSong (_ : Context) (s : Song) : M error :=
  node ← alloc (mkNode s None None);
  lock ;;
  deferred_unlock (
    h ← get head;
    match h with
    | None =>
        modify (set_head (Some node)) ;;
        modify (set_tail (Some node)) ;;
        modify (set_current (Some node)) ;;
        ret nil
    | Some _ =>
        tl ← get tail;
        store_next tl (Some node) ;;
        store_prev (Some node) tl ;;
        modify (set_tail (Some node)) ;;
        ret nil
    end).

(** [context.Background()] *)
Definition Background : Context := 0%nat.

(** The literal [&playerImpl{pauseCh: make(chan struct{}), stopCh: make(chan struct{})}]:
    every other field has its zero value and nobody waits on the channels. *)
Definition emptyPlayer : playerImpl :=
  mkPlayer ∅ false None None None [] false 0.

(** [fmt.Errorf("add songs[%d] song: %v", i, err)] *)
Definition add_song_error (i : nat) (msg : string) : string :=
  "add songs[" +:+ pretty i +:+ "] song: " +:+ msg.

(** The [for i, s := range songs] loop of [NewPlayer], from index [i] on. *)
Fixpoint add_songs (i : nat) (songs : list Song) : M error :=
  match songs with
  | [] => ret nil
  | s :: rest =>
      err ← AddSong Background s;
      match err with
      | Some msg => ret (Some (add_song_error i msg))
      | None => add_songs (S i) rest
      end
  end.

(** [func NewPlayer(songs ...Song)]: the player returned
    (nil, here [None], next to an error) and the error. *)
Definition NewPlayer (songs : list Song) : outcome (option playerImpl * error) :=
  (err ← add_songs 0 songs;
   pl ← get id;
   ret (match err with
        | None => (Some pl, nil)
        | Some _ => (None, err)
        end)) emptyPlayer.

(** ** Walking the playlist *)

(** Following one kind of link from [a] until nil, as the loop
    [for curr.next != nil { curr = curr.next }] of the tests does; at most
    [fuel] nodes are visited. *)
Fixpoint walk (link : playerNode → option ptr) (h : gmap ptr playerNode)
    (fuel : nat) (a : option ptr) : list ptr :=
  match fuel, a with
  | S fuel, Some a =>
      match h !! a with
      | Some nd => a :: walk link h fuel (link nd)
      | None => []
      end
  | _, _ => []
  end.

(** The nodes met from [head] along [next], and from [tail] along [prev].
    A walk that does not run in a circle meets every node at most once, so
    the number of nodes of the heap is fuel enough. *)
Definition forward (p : playerImpl) : list ptr :=
  walk next (nodes p) (size (nodes p)) (head p).

Definition backward (p : playerImpl) : list ptr :=
  walk prev (nodes p) (size (nodes p)) (tail p).

(** [*a.song], if [a] points to a node. *)
Definition song_at (p : playerImpl) (a : option ptr) : option Song :=
  a ≫= λ a, song <$> nodes p !! a.

(** The songs of the nodes in [l], in that order. *)
Definition tracks (p : playerImpl) (l : list ptr) : list (option Song) :=
  (λ a, song_at p (Some a)) <$> l.

(** Calls of [AddSong] one after the other, each result dropped as in
    [_ = pl.AddSong(ctx, s)]. *)
Fixpoint AddSongs (songs : list Song) : M unit :=
  match songs with
  | [] => ret tt
  | s :: rest => AddSong Background s ;; AddSongs rest
  end.

(** ** Moving the cursor *)

(** [p.current = p.current.next] *)
Definition move_next : M unit :=
  c ← get current;
  cn ← deref c;
  modify (set_current (next cn)).

(** [p.current = p.current.prev] *)
Definition move_prev : M unit :=
  c ← get current;
  cn ← deref c;
  modify (set_current (prev cn)).

(** ** The playback goroutine *)

(** The four cases of the [select] a parked goroutine can wake up in. *)
Inductive wake : Type :=
  | CtxDone                 (* [<-ctx.Done()] *)
  | StopRecv                (* [<-p.stopCh] *)
  | PauseRecv (now : Z)     (* [<-p.pauseCh], taken when the clock reads [now] *)
  | AfterFired.             (* [<-time.After(...)] *)

(** The body of the case taken; [true] when control reaches the end of the
    [for] body and the loop goes round again, [false] on [return]. *)
Definition select_case (t : timer) (w : wake) : M bool :=
  match w with
  | CtxDone =>
      modify (set_isPlaying false) ;;
      modify (set_playedTime 0) ;;
      ret false
  | StopRecv =>
      modify (set_isPlaying false) ;;
      modify (set_playedTime 0) ;;
      ret false
  | PauseRecv now =>
      modify (set_isPlaying false) ;;
      pt ← get playedTime;
      modify (set_playedTime (Int64.add pt (Time.Since (startPlaying t) now))) ;;
      ret false
  | AfterFired =>
      modify (set_playedTime 0) ;;
      c ← get current;
      cn ← deref c;
      if bool_decide (next cn = None) then
        modify (set_isPlaying false) ;;
        h ← get head;
        modify (set_current h) ;;
        ret false
      else
        move_next ;;
        ret true
  end.

(** Entering [select] evaluates [p.current.song.Duration - p.playedTime],
    the argument of [time.After]. *)
Definition arm : M Z :=
  c ← get current;
  cn ← deref c;
  pt ← get playedTime;
  ret (Int64.sub (Duration (song cn)) pt).

(** The goroutine goes to sleep in [select], last in the receive queue. *)
Definition park (ctx : Context) (start : Z) : M unit :=
  d ← arm;
  modify (fun p => set_parked (parked p ++ [mkTimer ctx start d]) p).

(** A goroutine taken out of the queue runs the case that woke it and, if
    the loop goes on, parks again with the same captured variables. *)
Definition resume (t : timer) (w : wake) : M unit :=
  again ← select_case t w;
  if again : bool then park (t_ctx t) (startPlaying t) else ret tt.

(** The two channels are unbuffered: a sender waits until a goroutine
    receives, and the oldest parked one does.  The send makes the receiver
    runnable; the sender does not wait for it and goes on running. *)
Definition receiver : M timer := fun p =>
  match parked p with
  | [] => Blocked p
  | t :: q => Ret t (set_parked q p)
  end.

(** A send after which the sender writes nothing more to the player (the
    one of [Pause]): the state the program settles in is the one in which
    the receiver has run its case. *)
Definition send (w : wake) : M unit := fun p =>
  match parked p with
  | [] => Blocked p
  | t :: q => resume t w (set_parked q p)
  end.

(** A send after which the sender goes on writing to the player (the one
    of [Next] and [Prev]): the goroutine [t] that received is scheduled
    while the sender runs the rest [m] of its method, and the writes of
    its case, which nothing orders against those of the sender, land when
    the sender has made its own. *)
Definition lands_after {A} (t : timer) (w : wake) (m : M A) : M A :=
  a ← m;
  resume t w ;;
  ret a.

(** The environment wakes the [i]-th parked goroutine: its [time.After]
    channel delivers, or its context is cancelled. *)
Definition wake_up (i : nat) (w : wake) : M unit := fun p =>
  match parked p !! i with
  | None => Ret tt p
  | Some t => resume t w (set_parked (delete i (parked p)) p)
  end.

Definition expire (i : nat) : M unit := wake_up i AfterFired.

(** Cancelling [ctx] closes [ctx.Done()] for every goroutine holding it;
    each of them leaves the queue and runs its first case. *)
Definition cancel (ctx : Context) : M unit := fun p =>
  let hit := filter (λ t, t_ctx t = ctx) (parked p) in
  let others := filter (λ t, t_ctx t ≠ ctx) (parked p) in
  foldr (λ t m, resume t CtxDone ;; m) (ret tt) hit (set_parked others p).

(** ** The methods of the player *)

(** [Play] calls [Next] and [Next] calls [Play]; [fuel] bounds the depth of
    that chain of calls ([fuel_enough] below: four levels are all the
    program can use).  [now] is what the clock reads during the call. *)
Fixpoint Play (fuel : nat) (now : Z) (ctx : Context) {struct fuel} : M error :=
  match fuel with
  | O => λ _, NoFuel
  | S fuel =>
      c ← get current;
      playing ← get isPlaying;
      if bool_decide (c = None) || playing then ret nil
      else
        cn ← deref c;
        pt ← get playedTime;
        if Duration (song cn) <? pt then Next fuel now ctx
        else
          modify (set_isPlaying true) ;;
          park ctx now ;;
          ret nil
  end
with Next (fuel : nat) (now : Z) (ctx : Context) {struct fuel} : M error :=
  match fuel with
  | O => λ _, NoFuel
  | S fuel =>
      lock ;;
      deferred_unlock (
        modify (set_isPlaying false) ;;
        modify (set_playedTime 0) ;;
        t ← receiver;
        lands_after t StopRecv (
          move_next ;;
          c' ← get current;
          (if bool_decide (c' = None)
           then tl ← get tail; modify (set_current tl)
           else ret tt) ;;
          Play fuel now ctx))
  end.

(** [func (p *playerImpl) Prev(ctx context.Context) error] *)
Definition Prev (fuel : nat) (now : Z) (ctx : Context) : M error :=
  match fuel with
  | O => λ _, NoFuel
  | S fuel =>
      lock ;;
      deferred_unlock (
        modify (set_isPlaying false) ;;
        modify (set_playedTime 0) ;;
        t ← receiver;
        lands_after t StopRecv (
          move_prev ;;
          c' ← get current;
          (if bool_decide (c' = None)
           then h ← get head; modify (set_current h)
           else ret tt) ;;
          Play fuel now ctx))
  end.

(** [func (p *playerImpl) Pause(_ context.Context) error]; the goroutine
    that receives reads the clock as [now]. *)
Definition Pause (now : Z) (_ : Context) : M error :=
  lock ;;
  deferred_unlock (
    playing ← get isPlaying;
    if negb playing then ret nil
    else send (PauseRecv now) ;; ret nil).

(** ** Vocabulary of the properties *)

(** [a.f], nil when [a] is nil. *)
Definition link_of (f : playerNode → option ptr) (p : playerImpl)
    (a : option ptr) : option ptr :=
  a ≫= λ a, nodes p !! a ≫= f.

(** The cursor a [Next] or [Prev] ends on, given the link it follows. *)
Definition clamp (link fallback : option ptr) : option ptr :=
  match link with
  | Some a => Some a
  | None => fallback
  end.

(** The player as [Next] and [Prev] leave it for the [Play] they end in:
    the oldest parked goroutine took the stop message, [q] are the others. *)
Definition stopped_at (target : option ptr) (q : list timer) (p : playerImpl) : playerImpl :=
  set_current target (set_playedTime 0 (set_isPlaying false (set_parked q (set_mu true p)))).

(** The link before position [i] of the list [ps] of nodes. *)
Definition before (ps : list ptr) (i : nat) : option ptr :=
  match i with
  | O => None
  | S j => ps !! j
  end.

(** The heap [h] holds exactly the nodes [ps], without repetition; the
    [i]-th holds the [i]-th song of [ss], its [next] is the node after it
    and its [prev] the node before it, nil at the two ends. *)
Record links (h : gmap ptr playerNode) (ps : list ptr) (ss : list Song) : Prop := {
  links_nodup : NoDup ps;
  links_length : length ss = length ps;
  links_dom : dom h = list_to_set ps;
  links_node : ∀ i a, ps !! i = Some a →
    ∃ s, ss !! i = Some s ∧ h !! a = Some (mkNode s (ps !! S i) (before ps i));
}.

(** A player whose playlist is the chain [ps] with songs [ss], at rest
    between two calls (mutex free). *)
Record playlist (p : playerImpl) (ps : list ptr) (ss : list Song) : Prop := {
  playlist_links : links (nodes p) ps ss;
  playlist_head : head p = ps !! 0%nat;
  playlist_tail : tail p = last ps;
  playlist_mu : mu p = false;
}.

(** The heap after [AddSong] appended song [s] in the fresh node [a] to a
    chain whose last node is [tl]. *)
Definition appended (a : ptr) (s : Song) (tl : option ptr)
    (h : gmap ptr playerNode) : gmap ptr playerNode :=
  <[a := mkNode s None tl]>
    (match tl with
     | Some t => alter (λ tn, mkNode (song tn) (Some a) (prev tn)) t h
     | None => h
     end).

(** ** Players to run the program on *)

Module Fixture.

(** The songs of the playback tests. *)
Definition sg : Song := mkSong "Sektor Gaza" (100 * Time.Millisecond).
Definition ap : Song := mkSong "Pushnoy" (30 * Time.Second).

Definition node1 : playerNode := mkNode sg (Some 2%positive) None.
Definition node2 : playerNode := mkNode ap None (Some 1%positive).

(** What [NewPlayer(sg, ap)] builds. *)
Definition two_songs : playerImpl :=
  mkPlayer (<[2%positive := node2]> (<[1%positive := node1]> ∅)) false
    (Some 1%positive) (Some 2%positive) (Some 1%positive) [] false 0.

(** A one-second song, the shortest [NewSong] accepts, paused at its very end. *)
Definition second_song : Song := mkSong "some song" Time.Second.

Definition one_song : playerImpl :=
  mkPlayer (<[1%positive := mkNode second_song None None]> ∅) false
    (Some 1%positive) (Some 1%positive) (Some 1%positive) [] false 0.

Definition paused_at_end : playerImpl := set_playedTime Time.Second one_song.

End Fixture.

(** ** The player as a state machine *)

(** Call depth given to the methods; [fuel_enough] shows it is all they use. *)
Definition depth : nat := 4.

(** What can happen to a player: a call of one of its five methods, the
    [time.After] of the [i]-th parked goroutine delivering, or a context
    being cancelled. *)
Inductive call : Type :=
  | CallPlay (now : Z) (ctx : Context)
  | CallPause (now : Z) (ctx : Context)
  | CallAddSong (ctx : Context) (s : Song)
  | CallNext (now : Z) (ctx : Context)
  | CallPrev (now : Z) (ctx : Context)
  | Expire (i : nat)
  | Cancel (ctx : Context).

(** One step of the machine; the error a method returns is dropped, as in
    [_ = pl.Play(ctx)]. *)
Definition step (c : call) : M unit :=
  match c with
  | CallPlay now ctx => Play depth now ctx ;; ret tt
  | CallPause now ctx => Pause now ctx ;; ret tt
  | CallAddSong ctx s => AddSong ctx s ;; ret tt
  | CallNext now ctx => Next depth now ctx ;; ret tt
  | CallPrev now ctx => Prev depth now ctx ;; ret tt
  | Expire i => expire i
  | Cancel ctx => cancel ctx
  end.

(** Steps one after the other. *)
Fixpoint steps (cs : list call) : M unit :=
  match cs with
  | [] => ret tt
  | c :: cs => step c ;; steps cs
  end.

(** [k] tracks in a row played to their end. *)
Fixpoint expirations (k : nat) : M unit :=
  match k with
  | O => ret tt
  | S k => expire 0 ;; expirations k
  end.

(** The cursor is on the [i]-th node of [ps]. *)
Definition cursor_at (p : playerImpl) (ps : list ptr) (i : nat) : Prop :=
  (i < length ps)%nat ∧ current p = ps !! i.

(** A player at rest between two steps: its playlist is the chain [ps] with
    songs [ss]; the cursor is nil if the playlist is empty and on one of its
    nodes otherwise; a goroutine is parked whenever [isPlaying] is set, and
    none is while the playlist is empty. *)
Record sound (p : playerImpl) (ps : list ptr) (ss : list Song) : Prop := {
  sound_playlist : playlist p ps ss;
  sound_cursor : (ps = [] ∧ current p = None) ∨ (∃ i, cursor_at p ps i);
  sound_timer : isPlaying p = true → parked p ≠ [];
  sound_empty : ps = [] → parked p = [];
}.

(** The player [Next] and [Prev] leave when they return: the cursor on
    [target], [playedTime] zero, the goroutines [q] that were queued behind
    the stopped one and the new one [t'] parked, and [isPlaying] cleared,
    by the stopped goroutine, after [Play] had set it. *)
Definition skipped_to (target : option ptr) (q : list timer) (t' : timer)
    (p : playerImpl) : playerImpl :=
  set_parked (q ++ [t']) (set_isPlaying false (set_playedTime 0 (set_current target p))).

(** The songs the calls of [AddSong] among [cs] pass, in order. *)
Definition songs_added (cs : list call) : list Song :=
  cs ≫= λ c, match c with CallAddSong _ s => [s] | _ => [] end.

(** A player some run of the machine arrives at: built by [NewPlayer], then
    taken through steps that all returned. *)
Definition reachable (p : playerImpl) : Prop :=
  ∃ songs cs p0, NewPlayer songs = Ret (Some p0, nil) p0 ∧ steps cs p0 = Ret tt p.

(** Fixtures: the two-song player while it plays its first song, started
    when the clock read zero. *)
Definition playing_two_songs : playerImpl :=
  set_parked [mkTimer Background 0 (100 * Time.Millisecond)]
    (set_isPlaying true Fixture.two_songs).

(** A run on the two-song player: play, append a song, let the first
    track end, pause, go back, append again, cancel; then play, skip, play
    again, pause and skip. *)
Definition demo_run : list call :=
  [CallPlay 0 Background;
   CallAddSong Background Fixture.second_song;
   Expire 0;
   CallPause (150 * Time.Millisecond) Background;
   CallPlay (200 * Time.Millisecond) 7%nat;
   CallPrev (300 * Time.Millisecond) 7%nat;
   CallAddSong Background Fixture.sg;
   Cancel 7%nat;
   CallPlay (400 * Time.Millisecond) Background;
   CallNext (500 * Time.Millisecond) Background;
   CallPlay (600 * Time.Millisecond) Background;
   CallPause (700 * Time.Millisecond) Background;
   CallNext (800 * Time.Millisecond) Background].

Definition after_demo_run : playerImpl :=
  Eval vm_compute in
    match steps demo_run Fixture.two_songs with
    | Ret _ p => p
    | _ => emptyPlayer
    end.




(** Two players with the same playlist: same nodes, same head, same tail. *)
Definition same_playlist (p p' : playerImpl) : Prop :=
  nodes p' = nodes p ∧ head p' = head p ∧ tail p' = tail p.

(** The two-song player while it plays its second, last song. *)
Definition playing_last_song : playerImpl :=
  set_parked [mkTimer Background 0 (30 * Time.Second)]
    (set_current (Some 2%positive) (set_isPlaying true Fixture.two_songs)).

(** The two-song player after [Play] and then [Next]: a goroutine plays
    the second song and [isPlaying] is false. *)
Definition skipped_two_songs : playerImpl :=
  skipped_to (Some 2%positive) [] (mkTimer Background 0 (30 * Time.Second))
    playing_two_songs.




(** While it plays, the player has a current song and has not played more
    of it than its duration. *)
Definition in_time (p : playerImpl) : Prop :=
  isPlaying p = true →
  ∃ s, song_at p (current p) = Some s ∧ playedTime p ≤ Duration s.

Arguments Play : simpl never.
Arguments Next : simpl never.

(** * Properties *)

(** ** Running monadic code *)

Ltac unfold_M :=
  unfold mbind, mret, M_bind, M_ret, bind, ret, get, modify, panic,
    lock, unlock, deferred_unlock in *.

Ltac run := repeat progress (unfold_M; simpl in *).

Lemma Play_S fuel now ctx :
  Play (S fuel) now ctx =
    (c ← get current;
     playing ← get isPlaying;
     if bool_decide (c = None) || playing then ret nil
     else
       cn ← deref c;
       pt ← get playedTime;
       if Duration (song cn) <? pt then Next fuel now ctx
       else modify (set_isPlaying true) ;; park ctx now ;; ret nil).
Proof. reflexivity. Qed.

Lemma Next_S fuel now ctx :
  Next (S fuel) now ctx =
    (lock ;;
     deferred_unlock (
       modify (set_isPlaying false) ;;
       modify (set_playedTime 0) ;;
       t ← receiver;
       lands_after t StopRecv (
         move_next ;;
         c' ← get current;
         (if bool_decide (c' = None)
          then tl ← get tail; modify (set_current tl)
          else ret tt) ;;
         Play fuel now ctx))).
Proof. reflexivity. Qed.

(** ** Arithmetic *)

Lemma wrap_small z : Int64.in_range z → Int64.wrap z = z.
Proof.
  unfold Int64.in_range, Int64.min_int, Int64.max_int, Int64.wrap. intros Hz.
  rewrite Z.mod_small; lia.
Qed.

Lemma wrap_in_range z : Int64.in_range (Int64.wrap z).
Proof.
  unfold Int64.in_range, Int64.min_int, Int64.max_int, Int64.wrap.
  pose proof (Z.mod_pos_bound (z + 2 ^ 63) (2 ^ 64)). lia.
Qed.

(** ** The fixtures are what the constructor builds *)

Lemma NewPlayer_two_songs :
  NewPlayer [Fixture.sg; Fixture.ap] = Ret (Some Fixture.two_songs, nil) Fixture.two_songs.
Proof. vm_compute. reflexivity. Qed.

Lemma NewPlayer_one_song :
  NewPlayer [Fixture.second_song] = Ret (Some Fixture.one_song, nil) Fixture.one_song.
Proof. vm_compute. reflexivity. Qed.

(** ** How deep the calls between [Play] and [Next] go

    A [Next] entered while the mutex is held never gets past [Lock]; the
    [Play] at the end of [Next] runs with the mutex held, so its own call
    of [Next] is the last one.  From four levels on the fuel is never
    used up and the result does not depend on it. *)

Lemma Next_locked fuel now ctx p :
  mu p = true → Next (S fuel) now ctx p = Blocked p.
Proof. intros H. rewrite Next_S. run. by rewrite H. Qed.

Lemma Prev_locked fuel now ctx p :
  mu p = true → Prev (S fuel) now ctx p = Blocked p.
Proof. intros H. unfold Prev. run. by rewrite H. Qed.

Lemma Play_locked_fuel fuel now ctx p :
  mu p = true → Play (S (S fuel)) now ctx p = Play 2 now ctx p.
Proof.
  intros H. rewrite !Play_S. run.
  destruct (bool_decide (current p = None) || isPlaying p); [done|].
  destruct (deref (current p) p) as [cn p'| |p'|] eqn:E; try done.
  assert (p' = p) as ->.
  { unfold deref in E. destruct (current p); [|done].
    destruct (nodes p !! p0); congruence. }
  destruct (Duration (song cn) <? playedTime p); [|done].
  by rewrite !Next_locked.
Qed.

Lemma resume_StopRecv t p :
  resume t StopRecv p = Ret tt (set_playedTime 0 (set_isPlaying false p)).
Proof. reflexivity. Qed.

(** [Next] and [Prev], case by case. *)
Lemma Next_cases fuel now ctx p :
  Next (S fuel) now ctx p =
    if mu p then Blocked p
    else match parked p with
         | [] => Blocked (set_playedTime 0 (set_isPlaying false (set_mu true p)))
         | t :: q =>
             match current p ≫= λ c, nodes p !! c with
             | None => Panic
             | Some cn =>
                 deferred_unlock (lands_after t StopRecv (Play fuel now ctx))
                   (stopped_at (clamp (next cn) (tail p)) q p)
             end
         end.
Proof.
  rewrite Next_S. unfold receiver, lands_after, move_next. run.
  destruct (mu p); [done|]. simpl.
  destruct (parked p) as [|t q]; [done|]. simpl.
  destruct (current p) as [c|]; [|done]. simpl.
  destruct (nodes p !! c) as [cn|]; [|done]. simpl.
  by destruct (next cn).
Qed.

Lemma Prev_cases fuel now ctx p :
  Prev (S fuel) now ctx p =
    if mu p then Blocked p
    else match parked p with
         | [] => Blocked (set_playedTime 0 (set_isPlaying false (set_mu true p)))
         | t :: q =>
             match current p ≫= λ c, nodes p !! c with
             | None => Panic
             | Some cn =>
                 deferred_unlock (lands_after t StopRecv (Play fuel now ctx))
                   (stopped_at (clamp (prev cn) (head p)) q p)
             end
         end.
Proof.
  unfold Prev, receiver, lands_after, move_prev. run.
  destruct (mu p); [done|]. simpl.
  destruct (parked p) as [|t q]; [done|]. simpl.
  destruct (current p) as [c|]; [|done]. simpl.
  destruct (nodes p !! c) as [cn|]; [|done]. simpl.
  by destruct (prev cn).
Qed.

Lemma Next_fuel fuel now ctx p :
  Next (S (S (S fuel))) now ctx p = Next 3 now ctx p.
Proof.
  rewrite !Next_cases. destruct (mu p); [done|].
  destruct (parked p) as [|t q]; [done|].
  destruct (current p ≫= _) as [cn|]; [|done].
  unfold deferred_unlock, lands_after, mbind, M_bind, bind.
  by rewrite (Play_locked_fuel fuel).
Qed.

Lemma Prev_fuel fuel now ctx p :
  Prev (S (S (S fuel))) now ctx p = Prev 3 now ctx p.
Proof.
  rewrite !Prev_cases. destruct (mu p); [done|].
  destruct (parked p) as [|t q]; [done|].
  destruct (current p ≫= _) as [cn|]; [|done].
  unfold deferred_unlock, lands_after, mbind, M_bind, bind.
  by rewrite (Play_locked_fuel fuel).
Qed.

Lemma Play_fuel fuel now ctx p :
  Play (S (S (S (S fuel)))) now ctx p = Play 4 now ctx p.
Proof.
  rewrite !Play_S. run.
  destruct (bool_decide (current p = None) || isPlaying p); [done|].
  destruct (deref (current p) p) as [cn p'| |p'|]; try done.
  destruct (Duration (song cn) <? playedTime p'); [|done].
  apply Next_fuel.
Qed.

(** With fuel for four levels the three methods are total: they return,
    panic or block, and more fuel changes nothing. *)
Lemma fuel_enough fuel now ctx p :
  (4 ≤ fuel)%nat →
  Play fuel now ctx p = Play 4 now ctx p ∧
  Next fuel now ctx p = Next 4 now ctx p ∧
  Prev fuel now ctx p = Prev 4 now ctx p.
Proof.
  intros H. do 4 (destruct fuel as [|fuel]; [lia|]).
  rewrite Play_fuel, (Next_fuel (S fuel)), (Next_fuel 1), (Prev_fuel (S fuel)), (Prev_fuel 1).
  done.
Qed.

Lemma Play_locked_total now ctx p :
  mu p = true → Play 2 now ctx p ≠ NoFuel.
Proof.
  intros Hm. rewrite Play_S. run.
  destruct (bool_decide (current p = None) || isPlaying p); [done|].
  unfold deref. destruct (current p) as [c|] eqn:Ec; [|done].
  destruct (nodes p !! c) as [cn|] eqn:E; [|done]. simpl.
  destruct (Duration (song cn) <? playedTime p).
  - by rewrite Next_locked.
  - unfold park, arm. run. rewrite Ec. simpl. by rewrite E.
Qed.

Lemma deferred_unlock_total {A} (m : M A) p :
  m p ≠ NoFuel → deferred_unlock m p ≠ NoFuel.
Proof. intros H. run. by destruct (m p). Qed.

Lemma lands_after_total {A} t (m : M A) p :
  m p ≠ NoFuel → lands_after t StopRecv m p ≠ NoFuel.
Proof. intros H. unfold lands_after. run. by destruct (m p). Qed.

(** With fuel for four levels no method runs out of it: each call returns,
    panics or blocks. *)
Lemma methods_total fuel now ctx p :
  (4 ≤ fuel)%nat →
  Play fuel now ctx p ≠ NoFuel ∧
  Next fuel now ctx p ≠ NoFuel ∧
  Prev fuel now ctx p ≠ NoFuel.
Proof.
  intros Hf. destruct (fuel_enough fuel now ctx p Hf) as (-> & -> & ->).
  assert (∀ p, Next 3 now ctx p ≠ NoFuel) as HN.
  { intros p0. rewrite Next_cases.
    destruct (mu p0); [done|]. destruct (parked p0); [done|].
    destruct (current p0 ≫= _); [|done].
    by apply deferred_unlock_total, lands_after_total, Play_locked_total. }
  split_and!.
  - rewrite Play_S. run.
    destruct (bool_decide (current p = None) || isPlaying p); [done|].
    unfold deref. destruct (current p) as [c|] eqn:Ec; [|done].
    destruct (nodes p !! c) as [cn|] eqn:E; [|done]. simpl.
    destruct (Duration (song cn) <? playedTime p); [apply HN|].
    unfold park, arm. run. rewrite Ec. simpl. by rewrite E.
  - rewrite (Next_fuel 1). apply HN.
  - rewrite (Prev_fuel 1), Prev_cases.
    destruct (mu p); [done|]. destruct (parked p); [done|].
    destruct (current p ≫= _); [|done].
    by apply deferred_unlock_total, lands_after_total, Play_locked_total.
Qed.

(** ** Track construction *)

(** C6.  [NewSong] reports an error exactly when the name is empty or the
    duration is below one second; for a non-empty name and a duration of at
    least one second it returns the song with that name and duration and
    no error. *)
Theorem NewSong_error_iff (name : string) (d : Z) :
  (snd (NewSong name d) ≠ nil ↔ name = "" ∨ d < Time.Second) ∧
  (name ≠ "" → Time.Second ≤ d → NewSong name d = (mkSong name d, nil)).
Proof.
  unfold NewSong. destruct (decide (name = "")) as [->|Hn]; simpl.
  - split; [split; [by left | done] | done].
  - destruct (Z.ltb_spec d Time.Second); simpl.
    + split; [split; [by right | done] | lia].
    + split; [|done]. split; [done|]. intros [?|?]; [done | lia].
Qed.

Lemma NewSong_error_iff_witness :
  NewSong "some song" Time.Second = (mkSong "some song" Time.Second, nil).
Proof.
  apply (NewSong_error_iff "some song" Time.Second); [done | reflexivity].
Defined.

(** ** Play when there is nothing to do *)

(** C9.  With no current node (empty playlist) or with playback already
    active, [Play] returns nil and the player is exactly as it was: cursor,
    links, [isPlaying] and [playedTime] included.  On the player that
    [NewPlayer()] builds, [isPlaying] therefore stays false. *)
Theorem Play_noop (fuel : nat) (now : Z) (ctx : Context) (p : playerImpl) :
  (current p = None ∨ isPlaying p = true →
   Play (S fuel) now ctx p = Ret nil p) ∧
  (NewPlayer [] = Ret (Some emptyPlayer, nil) emptyPlayer ∧
   Play (S fuel) now ctx emptyPlayer = Ret nil emptyPlayer ∧
   isPlaying emptyPlayer = false).
Proof.
  split; [|done].
  intros H. rewrite Play_S. run. destruct H as [-> | ->]; [done|].
  by rewrite orb_true_r.
Qed.

Lemma Play_noop_witness :
  Play 4 0 Background (set_isPlaying true emptyPlayer) =
  Ret nil (set_isPlaying true emptyPlayer).
Proof.
  apply (Play_noop 3 0 Background (set_isPlaying true emptyPlayer)).
  right. reflexivity.
Defined.

(** ** The playback goroutine, interrupted *)

Lemma Since_exact start now :
  Int64.in_range (now - start) → Time.Since start now = now - start.
Proof. unfold Int64.in_range, Time.Since. lia. Qed.

(** C2.  Woken by [ctx.Done()] or by a message on [stopCh], the goroutine
    clears [isPlaying] and sets [playedTime] to zero; woken by a message on
    [pauseCh] it clears [isPlaying] and adds the time since [startPlaying]
    to [playedTime] (a 64-bit addition, the plain sum when nothing
    overflows).  Nothing else changes, and in each case the goroutine
    returns: it is not parked again, so a sender finds the queue one
    goroutine shorter. *)
Theorem timer_interrupted (t : timer) (p : playerImpl) :
  resume t CtxDone p = Ret tt (set_playedTime 0 (set_isPlaying false p)) ∧
  resume t StopRecv p = Ret tt (set_playedTime 0 (set_isPlaying false p)) ∧
  (∀ now,
     resume t (PauseRecv now) p =
       Ret tt (set_playedTime
                 (Int64.add (playedTime p) (Time.Since (startPlaying t) now))
                 (set_isPlaying false p)) ∧
     (Int64.in_range (now - startPlaying t) →
      Int64.in_range (playedTime p + (now - startPlaying t)) →
      Int64.add (playedTime p) (Time.Since (startPlaying t) now) =
        playedTime p + (now - startPlaying t))) ∧
  (∀ w, w ≠ AfterFired → ∃ p', select_case t w p = Ret false p') ∧
  (∀ q now, parked p = t :: q →
     send StopRecv p =
       Ret tt (set_playedTime 0 (set_isPlaying false (set_parked q p))) ∧
     send (PauseRecv now) p =
       Ret tt (set_playedTime
                 (Int64.add (playedTime p) (Time.Since (startPlaying t) now))
                 (set_isPlaying false (set_parked q p)))).
Proof.
  repeat split; try reflexivity.
  - intros H1 H2. rewrite Since_exact by done. by apply wrap_small.
  - destruct w; by eauto.
  - unfold send. by rewrite H.
  - unfold send. by rewrite H.
Qed.

Lemma timer_interrupted_witness :
  Int64.add 100 (Time.Since 5 205) = 300.
Proof.
  apply (timer_interrupted (mkTimer Background 5 0) (set_playedTime 100 emptyPlayer)).
  - vm_compute. split; discriminate.
  - vm_compute. split; discriminate.
Defined.

(** ** The playback goroutine, at the end of a track *)

(** C3.  When [time.After] delivers, [playedTime] becomes zero.  If the
    current node has no next node, [isPlaying] is cleared, the cursor goes
    back to [head] and the goroutine returns.  Otherwise the cursor moves
    to the next node, [isPlaying] is left as it is, and the goroutine parks
    again, armed with the whole duration of the new current song since
    [playedTime] is zero. *)
Theorem timer_expired (t : timer) (p : playerImpl) (c : ptr) (cn : playerNode) :
  current p = Some c →
  nodes p !! c = Some cn →
  (next cn = None →
   resume t AfterFired p =
     Ret tt (set_current (head p) (set_isPlaying false (set_playedTime 0 p)))) ∧
  (∀ n nn, next cn = Some n → nodes p !! n = Some nn →
   resume t AfterFired p =
     Ret tt (set_parked
               (parked p ++ [mkTimer (t_ctx t) (startPlaying t) (Int64.wrap (Duration (song nn)))])
               (set_current (Some n) (set_playedTime 0 p)))).
Proof.
  intros Hc Hn. split.
  - intros Hnx. unfold resume, select_case. run. rewrite Hc. simpl.
    rewrite Hn. simpl. by rewrite Hnx.
  - intros n nn Hnx Hnn. unfold resume, select_case, move_next, park, arm. run.
    repeat (rewrite ?Hc, ?Hn, ?Hnx, ?Hnn; simpl).
    unfold Int64.sub. by rewrite Z.sub_0_r.
Qed.

Lemma timer_expired_witness :
  resume (mkTimer Background 0 (100 * Time.Millisecond)) AfterFired
    (set_isPlaying true Fixture.two_songs) =
  Ret tt (set_parked [mkTimer Background 0 (30 * Time.Second)]
            (set_current (Some 2%positive) (set_isPlaying true Fixture.two_songs))).
Proof.
  apply (proj2 (timer_expired (mkTimer Background 0 (100 * Time.Millisecond))
                  (set_isPlaying true Fixture.two_songs) 1%positive Fixture.node1
                  eq_refl eq_refl) 2%positive Fixture.node2 eq_refl eq_refl).
Defined.

(** ** Play after the track has been played to its end *)

Lemma Play_idle fuel now ctx p c cn :
  current p = Some c → nodes p !! c = Some cn → isPlaying p = false →
  Play (S fuel) now ctx p =
    if Duration (song cn) <? playedTime p then Next fuel now ctx p
    else Ret nil (set_parked
                    (parked p ++ [mkTimer ctx now (Int64.sub (Duration (song cn)) (playedTime p))])
                    (set_isPlaying true p)).
Proof.
  intros Hc Hn Hp. rewrite Play_S. unfold park, arm. run.
  repeat (rewrite ?Hc, ?Hn, ?Hp; simpl).
  destruct (Duration (song cn) <? playedTime p); [done|].
  simpl. rewrite Hc. simpl. by rewrite Hn.
Qed.

(** C1, as the program has it.  On an idle player with a current song,
    [Play] hands over to [Next] when [playedTime] is strictly greater than
    the duration of the song.  When the two are equal there is no handing
    over: [Play] sets [isPlaying], and starts the goroutine, whose
    [time.After] is armed with zero. *)
Theorem Play_catch_up (fuel : nat) (now : Z) (ctx : Context)
    (p : playerImpl) (c : ptr) (cn : playerNode) :
  (4 ≤ fuel)%nat →
  current p = Some c →
  nodes p !! c = Some cn →
  isPlaying p = false →
  (Duration (song cn) < playedTime p →
   Play fuel now ctx p = Next fuel now ctx p) ∧
  (playedTime p = Duration (song cn) →
   Play fuel now ctx p =
     Ret nil (set_parked (parked p ++ [mkTimer ctx now 0]) (set_isPlaying true p))).
Proof.
  intros Hf Hc Hn Hp.
  destruct (fuel_enough fuel now ctx p Hf) as (-> & -> & _).
  rewrite (Play_idle 3 now ctx p c cn) by done. split.
  - intros Hlt. rewrite (proj2 (Z.ltb_lt _ _)) by done.
    by rewrite (Next_fuel 1).
  - intros Heq. rewrite (proj2 (Z.ltb_ge _ _)) by lia.
    rewrite Heq. unfold Int64.sub. by rewrite Z.sub_diag.
Qed.

Lemma Play_catch_up_witness :
  Play 4 0 Background (set_playedTime (Time.Second + 1) Fixture.one_song) =
  Next 4 0 Background (set_playedTime (Time.Second + 1) Fixture.one_song).
Proof.
  apply (Play_catch_up 4 0 Background
           (set_playedTime (Time.Second + 1) Fixture.one_song)
           1%positive (mkNode Fixture.second_song None None));
    [lia | reflexivity | reflexivity | reflexivity | reflexivity].
Defined.

(** C1, as the specification words it, fails when [playedTime] equals the duration:
    [Play] returns with the goroutine started, which is not what [Next]
    does on that player (nobody receives its stop message). *)
Lemma Play_at_exact_duration_starts_timer :
  current Fixture.paused_at_end = Some 1%positive ∧
  nodes Fixture.paused_at_end !! 1%positive = Some (mkNode Fixture.second_song None None) ∧
  isPlaying Fixture.paused_at_end = false ∧
  Duration Fixture.second_song ≤ playedTime Fixture.paused_at_end ∧
  Play 4 0 Background Fixture.paused_at_end =
    Ret nil (set_parked [mkTimer Background 0 0] (set_isPlaying true Fixture.paused_at_end)) ∧
  Play 4 0 Background Fixture.paused_at_end ≠ Next 4 0 Background Fixture.paused_at_end ∧
  Play 4 0 Background Fixture.paused_at_end ≠ Next 3 0 Background Fixture.paused_at_end.
Proof.
  assert (Next 3 0 Background Fixture.paused_at_end =
          Blocked (set_playedTime 0 (set_mu true Fixture.paused_at_end))) as HN
    by reflexivity.
  repeat split; try reflexivity.
  - rewrite (Next_fuel 1), HN. discriminate.
  - rewrite HN. discriminate.
Qed.

(** ** Next and Prev *)

(** With nobody parked on [stopCh] the send never completes: the caller
    stays blocked holding the mutex, the cursor where it was. *)
Lemma Next_no_receiver fuel now ctx p :
  mu p = false → parked p = [] →
  Next (S fuel) now ctx p =
    Blocked (set_playedTime 0 (set_isPlaying false (set_mu true p))).
Proof. intros Hm Hq. by rewrite Next_cases, Hm, Hq. Qed.

Lemma Prev_no_receiver fuel now ctx p :
  mu p = false → parked p = [] →
  Prev (S fuel) now ctx p =
    Blocked (set_playedTime 0 (set_isPlaying false (set_mu true p))).
Proof. intros Hm Hq. by rewrite Prev_cases, Hm, Hq. Qed.

(** With a goroutine parked, [Next] hands it the stop message, moves the
    cursor to the next node, or to [tail] when there is none, and ends in
    [Play]; the case of the stopped goroutine lands after that. *)
Lemma Next_with_receiver fuel now ctx p t q c cn :
  mu p = false → parked p = t :: q →
  current p = Some c → nodes p !! c = Some cn →
  Next (S fuel) now ctx p =
    deferred_unlock (lands_after t StopRecv (Play fuel now ctx))
      (stopped_at (clamp (next cn) (tail p)) q p).
Proof.
  intros Hm Hq Hc Hn. rewrite Next_cases, Hm, Hq, Hc. simpl. by rewrite Hn.
Qed.

(** [Prev] does the same towards the previous node, or [head]. *)
Lemma Prev_with_receiver fuel now ctx p t q c cn :
  mu p = false → parked p = t :: q →
  current p = Some c → nodes p !! c = Some cn →
  Prev (S fuel) now ctx p =
    deferred_unlock (lands_after t StopRecv (Play fuel now ctx))
      (stopped_at (clamp (prev cn) (head p)) q p).
Proof.
  intros Hm Hq Hc Hn. rewrite Prev_cases, Hm, Hq, Hc. simpl. by rewrite Hn.
Qed.

(** C4, on the player [NewPlayer(sg, ap)] returns, which has a playlist and
    plays nothing: [Next] and [Prev] clear [isPlaying] and [playedTime],
    then wait for ever to send on [stopCh], with the mutex held.  The
    cursor has not moved and [Play] is not reached. *)
Theorem Next_Prev_idle_block :
  NewPlayer [Fixture.sg; Fixture.ap] = Ret (Some Fixture.two_songs, nil) Fixture.two_songs ∧
  Next 4 0 Background Fixture.two_songs = Blocked (set_mu true Fixture.two_songs) ∧
  Prev 4 0 Background Fixture.two_songs = Blocked (set_mu true Fixture.two_songs) ∧
  current (set_mu true Fixture.two_songs) = head Fixture.two_songs.
Proof.
  split; [apply NewPlayer_two_songs|].
  split; [by rewrite Next_no_receiver|].
  split; [by rewrite Prev_no_receiver|done].
Qed.

(** C10, as the program has it.  On a player without a current node the
    statements [p.current = p.current.next] and [p.current = p.current.prev]
    dereference nil, and [Next] and [Prev] never return.  In both methods,
    though, the send on [stopCh] comes first: with no goroutine parked,
    which is how a player without nodes is, since [Play] starts none on it,
    the call does not get as far as the dereference and does not panic. *)
Theorem Next_Prev_empty (fuel : nat) (now : Z) (ctx : Context) (p : playerImpl) :
  current p = None →
  parked p = [] →
  move_next p = Panic ∧
  move_prev p = Panic ∧
  (∀ e p', Next fuel now ctx p ≠ Ret e p') ∧
  (∀ e p', Prev fuel now ctx p ≠ Ret e p') ∧
  Next fuel now ctx p ≠ Panic ∧
  Prev fuel now ctx p ≠ Panic.
Proof.
  intros Hc Hq.
  split; [unfold move_next; run; by rewrite Hc|].
  split; [unfold move_prev; run; by rewrite Hc|].
  destruct fuel as [|fuel]; [done|].
  rewrite Next_cases, Prev_cases, Hq. by destruct (mu p).
Qed.

Lemma Next_Prev_empty_witness :
  move_next emptyPlayer = Panic ∧
  move_prev emptyPlayer = Panic ∧
  (∀ e p', Next 4 0 Background emptyPlayer ≠ Ret e p') ∧
  (∀ e p', Prev 4 0 Background emptyPlayer ≠ Ret e p') ∧
  Next 4 0 Background emptyPlayer ≠ Panic ∧
  Prev 4 0 Background emptyPlayer ≠ Panic.
Proof.
  apply (Next_Prev_empty 4 0 Background emptyPlayer); reflexivity.
Defined.

(** C10, as the specification words it, fails on the player [NewPlayer()]
    returns: [Next] and [Prev] do not reach the nil dereference.  They are
    stopped before it, at the send on [stopCh], the cursor still nil. *)
Lemma Next_Prev_on_new_player_no_panic :
  NewPlayer [] = Ret (Some emptyPlayer, nil) emptyPlayer ∧
  current emptyPlayer = None ∧
  Next 4 0 Background emptyPlayer = Blocked (set_mu true emptyPlayer) ∧
  Prev 4 0 Background emptyPlayer = Blocked (set_mu true emptyPlayer) ∧
  Next 4 0 Background emptyPlayer ≠ Panic ∧
  Prev 4 0 Background emptyPlayer ≠ Panic.
Proof. by split_and!. Qed.

(** ** Appending to the playlist *)

(** The first [AddSong] on a player: the new node is head, tail and cursor. *)
Lemma AddSong_first ctx s p :
  mu p = false → head p = None →
  AddSong ctx s p =
    Ret nil (let a := fresh (dom (nodes p)) in
             mkPlayer (<[a := mkNode s None None]> (nodes p)) false
               (Some a) (Some a) (Some a) (parked p) (isPlaying p) (playedTime p)).
Proof.
  intros Hm Hh. unfold AddSong, alloc. run. rewrite Hm. simpl. by rewrite Hh.
Qed.

(** A later [AddSong]: the old tail gets the new node as its next, the new
    node the old tail as its prev, and [tail] moves. *)
Lemma AddSong_later ctx s p h t tn :
  mu p = false → head p = Some h → tail p = Some t → nodes p !! t = Some tn →
  AddSong ctx s p =
    Ret nil (let a := fresh (dom (nodes p)) in
             mkPlayer (<[a := mkNode s None (Some t)]>
                         (<[t := mkNode (song tn) (Some a) (prev tn)]>
                            (<[a := mkNode s None None]> (nodes p))))
               false (head p) (Some a) (current p) (parked p) (isPlaying p) (playedTime p)).
Proof.
  intros Hm Hh Ht Hn.
  assert (fresh (dom (nodes p)) ≠ t) as Hne.
  { intros E. pose proof (is_fresh (dom (nodes p))) as Hf.
    rewrite E in Hf. apply Hf, elem_of_dom. eauto. }
  unfold AddSong, alloc, store_next, store_prev, deref. run.
  rewrite Hm. simpl. rewrite Hh. simpl. rewrite Ht. simpl.
  rewrite lookup_insert_ne by done. rewrite Hn. simpl.
  rewrite lookup_insert_ne by done. rewrite lookup_insert_eq. simpl.
  unfold set_mu, set_tail, set_nodes. simpl. by rewrite Hh.
Qed.

(** ** The shape of the playlist *)

Lemma links_size h ps ss : links h ps ss → size h = length ps.
Proof.
  intros [Hnd _ Hdom _]. rewrite <- size_dom, Hdom.
  by apply size_list_to_set.
Qed.

Lemma walk_next_links h ps ss :
  links h ps ss →
  ∀ fuel i, (length ps - i ≤ fuel)%nat → walk next h fuel (ps !! i) = drop i ps.
Proof.
  intros Hl. induction fuel as [|fuel IH]; intros i Hi.
  - rewrite drop_ge by lia. by destruct (ps !! i).
  - destruct (ps !! i) as [a|] eqn:E.
    + destruct (links_node _ _ _ Hl i a E) as (s & _ & Ha).
      simpl. rewrite Ha. simpl. rewrite IH by lia.
      symmetry. by apply drop_S.
    + simpl. apply lookup_ge_None in E. by rewrite drop_ge.
Qed.

Lemma walk_prev_links h ps ss :
  links h ps ss →
  ∀ i fuel a, ps !! i = Some a → (i < fuel)%nat →
    walk prev h fuel (Some a) = reverse (take (S i) ps).
Proof.
  intros Hl. induction i as [|i IH]; intros fuel a E Hf.
  - destruct fuel as [|fuel]; [lia|].
    destruct (links_node _ _ _ Hl _ _ E) as (s & _ & Ha).
    simpl. rewrite Ha. simpl.
    destruct ps as [|b ps']; simplify_eq/=. by destruct fuel.
  - destruct fuel as [|fuel]; [lia|].
    destruct (links_node _ _ _ Hl _ _ E) as (s & _ & Ha).
    simpl. rewrite Ha. simpl.
    destruct (ps !! i) as [b|] eqn:Eb.
    + rewrite (IH fuel b) by (done || lia).
      rewrite (take_S_r ps (S i) a) by done.
      by rewrite reverse_app.
    + apply lookup_ge_None in Eb. apply lookup_lt_Some in E. lia.
Qed.

Lemma forward_playlist p ps ss : playlist p ps ss → forward p = ps.
Proof.
  intros [Hl Hh _ _]. unfold forward. rewrite Hh.
  rewrite (walk_next_links _ _ _ Hl); [done|].
  rewrite (links_size _ _ _ Hl). lia.
Qed.

Lemma backward_playlist p ps ss : playlist p ps ss → backward p = reverse ps.
Proof.
  intros [Hl _ Ht _]. unfold backward. rewrite Ht.
  destruct (last ps) as [a|] eqn:E.
  - rewrite last_lookup in E.
    assert (length ps ≠ 0)%nat as Hne.
    { intros E0. apply lookup_lt_Some in E. lia. }
    rewrite (walk_prev_links _ _ _ Hl _ _ _ E)
      by (rewrite (links_size _ _ _ Hl); lia).
    rewrite take_ge; [done|lia].
  - apply last_None in E. subst ps. by destruct (size (nodes p)).
Qed.

Lemma tracks_playlist p ps ss : playlist p ps ss → tracks p ps = Some <$> ss.
Proof.
  intros [Hl _ _ _]. apply list_eq. intros i. unfold tracks.
  rewrite !list_lookup_fmap.
  destruct (ps !! i) as [a|] eqn:E; simpl.
  - destruct (links_node _ _ _ Hl _ _ E) as (s & -> & Ha). simpl.
    by rewrite Ha.
  - apply lookup_ge_None in E. rewrite <- (links_length _ _ _ Hl) in E.
    apply lookup_ge_None in E. by rewrite E.
Qed.

Lemma links_empty : links ∅ [] [].
Proof.
  split; [constructor | done | by rewrite dom_empty_L | intros i a; by rewrite lookup_nil].
Qed.

Lemma playlist_empty : playlist emptyPlayer [] [].
Proof. split; [apply links_empty | done | done | done]. Qed.

Lemma links_lookup_elem h ps ss a :
  links h ps ss → a ∈ ps ↔ is_Some (h !! a).
Proof.
  intros Hl. rewrite <- elem_of_dom, (links_dom _ _ _ Hl).
  by rewrite elem_of_list_to_set.
Qed.

(** The chain after an append of song [s] in a fresh node [a]. *)
Lemma links_snoc h ps ss a s :
  links h ps ss → h !! a = None →
  links (<[a := mkNode s None (last ps)]>
           (match last ps with
            | Some t => alter (λ tn, mkNode (song tn) (Some a) (prev tn)) t h
            | None => h
            end))
        (ps ++ [a]) (ss ++ [s]).
Proof.
  intros Hl Ha.
  assert (a ∉ ps) as Hnin.
  { rewrite (links_lookup_elem _ _ _ _ Hl), Ha. by intros [? ?]. }
  split.
  - apply NoDup_app. split; [apply Hl|]. split; [|apply NoDup_singleton].
    intros x Hx ->%list_elem_of_singleton. done.
  - rewrite !length_app, (links_length _ _ _ Hl). done.
  - rewrite dom_insert_L, list_to_set_app_L. simpl.
    assert (dom (match last ps with
                 | Some t => alter (λ tn, mkNode (song tn) (Some a) (prev tn)) t h
                 | None => h
                 end) = dom h) as ->.
    { destruct (last ps); [apply dom_alter_L | done]. }
    rewrite (links_dom _ _ _ Hl).
    by rewrite (right_id_L ∅ (∪)), (comm_L (∪)).
  - intros i b Hb.
    destruct (decide (i < length ps)%nat) as [Hlt|Hge].
    + rewrite lookup_app_l in Hb by done.
      destruct (links_node _ _ _ Hl _ _ Hb) as (si & Hsi & Hnb).
      exists si. split; [by rewrite lookup_app_l by (rewrite (links_length _ _ _ Hl); done)|].
      assert (b ≠ a) as Hne.
      { intros ->. apply Hnin. by eapply list_elem_of_lookup_2. }
      rewrite lookup_insert_ne by done.
      assert (before (ps ++ [a]) i = before ps i) as ->.
      { destruct i as [|j]; [done|]. simpl. apply lookup_app_l. lia. }
      destruct (last ps) as [t|] eqn:Et.
      * rewrite last_lookup in Et.
        destruct (decide (b = t)) as [->|Hbt].
        -- assert (i = pred (length ps)) as Hi.
           { eapply NoDup_lookup; [apply Hl | exact Hb | exact Et]. }
           rewrite lookup_alter_eq, Hnb. simpl.
           replace (S i) with (length ps + 0)%nat by lia.
           rewrite lookup_app_r by lia.
           replace (length ps + 0 - length ps)%nat with 0%nat by lia.
           done.
        -- rewrite lookup_alter_ne by done. rewrite Hnb.
           assert (S i < length ps)%nat.
           { destruct (decide (S i < length ps)%nat); [done|].
             exfalso. apply Hbt.
             replace (pred (length ps)) with i in Et by lia. congruence. }
           by rewrite lookup_app_l by done.
      * apply last_None in Et. subst ps. simpl in Hlt. lia.
    + assert (i = length ps) as ->.
      { apply lookup_lt_Some in Hb. rewrite length_app in Hb. simpl in Hb. lia. }
      rewrite list_lookup_middle in Hb by done. simplify_eq.
      exists s. split.
      { rewrite <- (links_length _ _ _ Hl). by apply list_lookup_middle. }
      rewrite lookup_insert_eq. f_equal. f_equal.
      * symmetry. apply lookup_ge_None. rewrite length_app. simpl. lia.
      * rewrite last_lookup. destruct (length ps) as [|n] eqn:En; simpl.
        -- by destruct ps.
        -- rewrite lookup_app_l by lia. done.
Qed.

(** [AddSong] on a player at rest returns nil and leaves the playlist one
    node longer; the cursor moves only if there was no node before, and the
    playback state is not touched. *)
Lemma AddSong_playlist ctx s p ps ss :
  playlist p ps ss →
  ∃ a p',
    nodes p !! a = None ∧
    AddSong ctx s p = Ret nil p' ∧
    playlist p' (ps ++ [a]) (ss ++ [s]) ∧
    nodes p' = appended a s (tail p) (nodes p) ∧
    current p' = (match head p with Some _ => current p | None => Some a end) ∧
    parked p' = parked p ∧ isPlaying p' = isPlaying p ∧ playedTime p' = playedTime p.
Proof.
  intros [Hl Hh Ht Hm].
  set (a := fresh (dom (nodes p))).
  assert (nodes p !! a = None) as Ha.
  { apply not_elem_of_dom, is_fresh. }
  pose proof (links_snoc _ _ _ a s Hl Ha) as Hl'.
  exists a. destruct ps as [|b ps'] eqn:Eps.
  - simpl in Hh, Ht. eexists. split; [done|].
    split; [by apply AddSong_first|]. fold a. simpl.
    unfold appended. rewrite Ht, Hh. simpl in Hl'.
    split_and!; by try split.
  - assert (is_Some (last (b :: ps'))) as [t Et].
    { rewrite last_lookup. apply lookup_lt_is_Some. simpl. lia. }
    rewrite <- Eps in *. rewrite Et in Ht.
    assert (is_Some (nodes p !! t)) as [tn Htn].
    { apply (links_lookup_elem _ _ _ _ Hl). rewrite last_lookup in Et.
      by eapply list_elem_of_lookup_2. }
    assert (is_Some (head p)) as [h0 Hh0].
    { rewrite Hh, Eps. simpl. eauto. }
    eexists. split; [done|].
    split; [by eapply AddSong_later|]. fold a. simpl.
    assert (<[a := mkNode s None (Some t)]>
              (<[t := mkNode (song tn) (Some a) (prev tn)]>
                 (<[a := mkNode s None None]> (nodes p))) =
            appended a s (tail p) (nodes p)) as Hmap.
    { unfold appended. rewrite Ht. apply map_eq. intros k.
      destruct (decide (k = a)) as [->|Hka].
      { by rewrite !lookup_insert_eq. }
      rewrite !(lookup_insert_ne _ a k) by done.
      destruct (decide (k = t)) as [->|Hkt].
      - by rewrite lookup_insert_eq, lookup_alter_eq, Htn.
      - rewrite lookup_insert_ne, lookup_alter_ne by done.
        by rewrite lookup_insert_ne by done. }
    rewrite Hmap, Hh0.
    split_and!; try done. split; simpl.
    + unfold appended. rewrite Ht. by rewrite Et in Hl'.
    + rewrite <- Hh0, Hh, Eps. done.
    + by rewrite last_snoc.
    + done.
Qed.

(** Any number of appends to the new player give a playlist that holds
    the songs appended, in order, with the cursor on the first. *)
Lemma AddSongs_playlist songs p ps ss :
  playlist p ps ss → current p = head p →
  ∃ p' ps',
    AddSongs songs p = Ret tt p' ∧
    playlist p' (ps ++ ps') (ss ++ songs) ∧
    current p' = head p' ∧
    parked p' = parked p ∧ isPlaying p' = isPlaying p ∧ playedTime p' = playedTime p.
Proof.
  revert p ps ss. induction songs as [|s songs IH]; intros p ps ss Hp Hc.
  - exists p, []. rewrite !app_nil_r. by split_and!.
  - destruct (AddSong_playlist Background s p ps ss Hp)
      as (a & p1 & _ & Hrun & Hp1 & _ & Hc1 & Hq1 & Hi1 & Ht1).
    assert (current p1 = head p1) as Hc1'.
    { rewrite Hc1, (playlist_head _ _ _ Hp1), Hc, (playlist_head _ _ _ Hp).
      by destruct ps. }
    destruct (IH p1 _ _ Hp1 Hc1') as (p2 & ps2 & Hrun2 & Hp2 & Hc2 & Hq2 & Hi2 & Ht2).
    exists p2, (a :: ps2). simpl. unfold mbind, M_bind, bind. rewrite Hrun.
    rewrite <- !app_assoc in Hp2. simpl in Hp2.
    split_and!; try done; congruence.
Qed.

(** The loop of [NewPlayer] never meets an error: it is the sequence of
    appends. *)
Lemma add_songs_AddSongs songs i p ps ss :
  playlist p ps ss →
  add_songs i songs p = (AddSongs songs ;; ret nil) p.
Proof.
  revert i p ps ss. induction songs as [|s songs IH]; intros i p ps ss Hp; [done|].
  destruct (AddSong_playlist Background s p ps ss Hp) as (a & p1 & _ & Hrun & Hp1 & _).
  simpl. unfold mbind, M_bind, bind. rewrite Hrun. unfold nil at 1.
  by rewrite (IH (S i) p1 _ _ Hp1).
Qed.

Lemma NewPlayer_playlist songs :
  ∃ p ps,
    NewPlayer songs = Ret (Some p, nil) p ∧
    AddSongs songs emptyPlayer = Ret tt p ∧
    playlist p ps songs ∧
    current p = head p ∧
    parked p = [] ∧ isPlaying p = false ∧ playedTime p = 0.
Proof.
  destruct (AddSongs_playlist songs emptyPlayer [] [] playlist_empty eq_refl)
    as (p & ps & Hrun & Hp & Hc & Hq & Hi & Ht).
  exists p, ps. unfold NewPlayer.
  unfold mbind, M_bind, bind at 1.
  rewrite (add_songs_AddSongs songs 0 emptyPlayer [] [] playlist_empty).
  unfold mbind, M_bind, bind at 1. rewrite Hrun. simpl.
  split_and!; done.
Qed.

Lemma song_at_index p ps ss i :
  playlist p ps ss → song_at p (ps !! i) = ss !! i.
Proof.
  intros Hp. destruct (ps !! i) as [a|] eqn:E; simpl.
  - destruct (links_node _ _ _ (playlist_links _ _ _ Hp) _ _ E) as (s & -> & ->).
    done.
  - apply lookup_ge_None in E.
    rewrite <- (links_length _ _ _ (playlist_links _ _ _ Hp)) in E.
    symmetry. by apply lookup_ge_None.
Qed.

Lemma playlist_ends p ps ss :
  playlist p ps ss →
  link_of prev p (head p) = None ∧ link_of next p (tail p) = None.
Proof.
  intros Hp. pose proof (playlist_links _ _ _ Hp) as Hl.
  rewrite (playlist_head _ _ _ Hp), (playlist_tail _ _ _ Hp), last_lookup.
  split.
  - destruct (ps !! 0%nat) as [a|] eqn:E; [|done]. simpl.
    destruct (links_node _ _ _ Hl _ _ E) as (s & _ & ->). done.
  - destruct (ps !! pred (length ps)) as [a|] eqn:E; [|done]. simpl.
    destruct (links_node _ _ _ Hl _ _ E) as (s & _ & ->). simpl.
    apply lookup_ge_None. apply lookup_lt_Some in E. lia.
Qed.

(** C7.  After any sequence of [AddSong] calls on a new player: the head has
    no [prev], the tail no [next]; the walk from head along [next] meets
    the songs in the order they were added, and the walk from tail along
    [prev] meets the same nodes in reverse order.  One more [AddSong]
    returns nil, touches no node but the old tail, whose [next] becomes the
    new node, and makes the new node the tail with the old tail as [prev]:
    the forward walk gains the new node at its end, the backward walk at
    its start. *)
Theorem AddSong_chain (songs : list Song) :
  ∃ p,
    AddSongs songs emptyPlayer = Ret tt p ∧
    link_of prev p (head p) = None ∧
    link_of next p (tail p) = None ∧
    tracks p (forward p) = Some <$> songs ∧
    backward p = reverse (forward p) ∧
    ∀ ctx s, ∃ a p',
      nodes p !! a = None ∧
      AddSong ctx s p = Ret nil p' ∧
      nodes p' =
        <[a := mkNode s None (tail p)]>
          (match tail p with
           | Some t => alter (λ tn, mkNode (song tn) (Some a) (prev tn)) t (nodes p)
           | None => nodes p
           end) ∧
      tail p' = Some a ∧
      head p' = Some (default a (head p)) ∧
      forward p' = forward p ++ [a] ∧
      backward p' = a :: backward p.
Proof.
  destruct (NewPlayer_playlist songs) as (p & ps & _ & Hrun & Hp & _).
  exists p. destruct (playlist_ends _ _ _ Hp) as [Hhd Htl].
  rewrite (forward_playlist _ _ _ Hp), (backward_playlist _ _ _ Hp).
  split_and!; try done; [by apply tracks_playlist|].
  intros ctx s.
  destruct (AddSong_playlist ctx s p ps songs Hp)
    as (a & p' & Ha & Hadd & Hp' & Hnodes & _).
  exists a, p'.
  rewrite (forward_playlist _ _ _ Hp'), (backward_playlist _ _ _ Hp').
  split_and!; try done.
  - rewrite (playlist_tail _ _ _ Hp'). apply last_snoc.
  - rewrite (playlist_head _ _ _ Hp'), (playlist_head _ _ _ Hp). by destruct ps.
  - by rewrite reverse_snoc.
Qed.

(** ** Construction *)

(** C8.  [NewPlayer] on any songs returns a player and no error; its head
    holds the first song, its tail the last, the walk from head meets the
    songs in the order given, and the cursor is the head.  (With no songs
    at all there is no head, no tail and no cursor.) *)
Theorem NewPlayer_order (songs : list Song) :
  ∃ p,
    NewPlayer songs = Ret (Some p, nil) p ∧
    song_at p (head p) = songs !! 0%nat ∧
    song_at p (tail p) = last songs ∧
    tracks p (forward p) = Some <$> songs ∧
    length (forward p) = length songs ∧
    current p = head p.
Proof.
  destruct (NewPlayer_playlist songs) as (p & ps & Hnew & _ & Hp & Hc & _).
  exists p. rewrite (forward_playlist _ _ _ Hp).
  split_and!; try done.
  - rewrite (playlist_head _ _ _ Hp). by apply song_at_index.
  - rewrite (playlist_tail _ _ _ Hp), !last_lookup.
    rewrite (links_length _ _ _ (playlist_links _ _ _ Hp)).
    by apply song_at_index.
  - by apply tracks_playlist.
  - symmetry. apply (links_length _ _ _ (playlist_links _ _ _ Hp)).
Qed.

(** C5, as the program has it.  [NewPlayer] returns a player and no error
    whatever the songs, valid for [NewSong] or not: it is the plain
    sequence of [AddSong] calls, none of which reports an error. *)
Theorem NewPlayer_never_fails (songs : list Song) :
  ∃ p,
    NewPlayer songs = Ret (Some p, nil) p ∧
    AddSongs songs emptyPlayer = Ret tt p ∧
    add_songs 0 songs emptyPlayer = Ret nil p.
Proof.
  destruct (NewPlayer_playlist songs) as (p & ps & Hnew & Hrun & _).
  exists p. split_and!; try done.
  rewrite (add_songs_AddSongs songs 0 emptyPlayer [] [] playlist_empty).
  unfold mbind, M_bind, bind. by rewrite Hrun.
Qed.

(** C5, as the specification words it, fails: the song [Song{}] is one that [NewSong]
    refuses, and [NewPlayer] builds a player from it without error. *)
Lemma NewPlayer_accepts_invalid_song :
  snd (NewSong (Name zeroSong) (Duration zeroSong)) ≠ nil ∧
  NewPlayer [zeroSong] =
    Ret (Some (mkPlayer (<[1%positive := mkNode zeroSong None None]> ∅) false
                 (Some 1%positive) (Some 1%positive) (Some 1%positive) [] false 0),
         nil)
        (mkPlayer (<[1%positive := mkNode zeroSong None None]> ∅) false
           (Some 1%positive) (Some 1%positive) (Some 1%positive) [] false 0).
Proof. split; [discriminate | vm_compute; reflexivity]. Qed.

(** ** The playback tests, replayed

    The scenarios of [TestPlaying], with the clock readings the sleeps of
    the tests aim at. *)

(** "should stop player": cancelling the context of [Play] stops playback
    and forgets the time played. *)
Example test_should_stop_player :
  (Play 4 0 7%nat ;; cancel 7%nat) Fixture.two_songs = Ret tt Fixture.two_songs.
Proof. vm_compute. reflexivity. Qed.

(** "should pause player": two rounds of play and pause of 100ms each add
    up to 200ms. *)
Example test_should_pause_player :
  (Play 4 0 Background ;;
   Pause (100 * Time.Millisecond) Background) Fixture.two_songs =
    Ret nil (set_playedTime (100 * Time.Millisecond) Fixture.two_songs) ∧
  (Play 4 (101 * Time.Millisecond) Background ;;
   Pause (201 * Time.Millisecond) Background)
    (set_playedTime (100 * Time.Millisecond) Fixture.two_songs) =
    Ret nil (set_playedTime (200 * Time.Millisecond) Fixture.two_songs).
Proof. split; vm_compute; reflexivity. Qed.

(** "should play next song on duration is over". *)
Example test_should_play_next_song :
  (Play 4 0 Background ;; expire 0 ;;
   Pause (150 * Time.Millisecond) Background) Fixture.two_songs =
    Ret nil (set_playedTime (150 * Time.Millisecond)
               (set_current (Some 2%positive) Fixture.two_songs)).
Proof. vm_compute. reflexivity. Qed.

(** "should stop player and move cursor at first song if the last song is
    over". *)
Example test_last_song_is_over :
  (modify (set_current (Some 2%positive)) ;;
   Play 4 0 Background ;; expire 0) Fixture.two_songs =
    Ret tt Fixture.two_songs.
Proof. vm_compute. reflexivity. Qed.

(** * The player as a state machine *)

(** ** The methods, case by case *)

Lemma Play_cases fuel now ctx p :
  Play (S fuel) now ctx p =
    match current p with
    | None => Ret nil p
    | Some c =>
        if isPlaying p then Ret nil p
        else match nodes p !! c with
             | None => Panic
             | Some cn =>
                 if Duration (song cn) <? playedTime p then Next fuel now ctx p
                 else Ret nil
                        (set_parked
                           (parked p ++
                              [mkTimer ctx now (Int64.sub (Duration (song cn)) (playedTime p))])
                           (set_isPlaying true p))
             end
    end.
Proof.
  rewrite Play_S. unfold park, arm. run.
  destruct (current p) as [c|] eqn:Ec; [|done]. simpl.
  destruct (isPlaying p); [done|]. simpl.
  destruct (nodes p !! c) as [cn|] eqn:En; [|done]. simpl.
  destruct (Duration (song cn) <? playedTime p); [done|]. simpl.
  rewrite Ec. simpl. by rewrite En.
Qed.

Lemma Pause_cases now ctx p :
  Pause now ctx p =
    if mu p then Blocked p
    else if isPlaying p then
      match parked p with
      | [] => Blocked (set_mu true p)
      | t :: q =>
          Ret nil (set_playedTime
                     (Int64.add (playedTime p) (Time.Since (startPlaying t) now))
                     (set_isPlaying false (set_parked q p)))
      end
    else Ret nil p.
Proof.
  unfold Pause, send. run. destruct (mu p) eqn:Em; [done|]. simpl.
  destruct (isPlaying p) eqn:Ei; simpl.
  - destruct (parked p) as [|t q] eqn:Eq; simpl.
    + done.
    + destruct p; simpl in *. by subst.
  - destruct p; simpl in *. by subst.
Qed.

(** The goroutine woken by [time.After], case by case. *)
Lemma resume_AfterFired t p :
  resume t AfterFired p =
    match current p ≫= λ c, nodes p !! c with
    | None => Panic
    | Some cn =>
        match next cn with
        | None => Ret tt (set_current (head p) (set_isPlaying false (set_playedTime 0 p)))
        | Some n =>
            match nodes p !! n with
            | None => Panic
            | Some nn =>
                Ret tt (set_parked
                          (parked p ++
                             [mkTimer (t_ctx t) (startPlaying t) (Int64.wrap (Duration (song nn)))])
                          (set_current (Some n) (set_playedTime 0 p)))
            end
        end
    end.
Proof.
  unfold resume, select_case, move_next, park, arm. run.
  destruct (current p) as [c|] eqn:Ec; [|done]. simpl.
  destruct (nodes p !! c) as [cn|] eqn:En; [|done]. simpl.
  destruct (next cn) as [n|] eqn:Ex; simpl; [|done].
  rewrite Ec. simpl. rewrite En. simpl. rewrite Ex. simpl.
  destruct (nodes p !! n) as [nn|]; [|done]. simpl.
  unfold Int64.sub. by rewrite Z.sub_0_r.
Qed.

(** [AddSong] on any player: if it returns, it returns nil, with the
    mutex free and the playback state as it was. *)
Lemma AddSong_returns ctx s p e p' :
  AddSong ctx s p = Ret e p' →
  e = nil ∧ mu p = false ∧ mu p' = false ∧
  parked p' = parked p ∧ isPlaying p' = isPlaying p ∧ playedTime p' = playedTime p.
Proof.
  unfold AddSong, alloc, store_next, store_prev, deref. run.
  destruct (mu p) eqn:Em; [done|]. simpl.
  destruct (head p); simpl.
  - destruct (tail p) as [t|]; [|done]. simpl.
    destruct (<[_:=_]> (nodes p) !! t); [|done]. simpl.
    destruct (<[t:=_]> _ !! _); [|done]. simpl.
    intros [= <- <-]. done.
  - intros [= <- <-]. done.
Qed.

(** ** Sound players *)

(** The shape of the playlist depends on the heap, [head], [tail] and the
    mutex only. *)
Lemma playlist_frame p p' ps ss :
  nodes p' = nodes p → head p' = head p → tail p' = tail p → mu p' = false →
  playlist p ps ss → playlist p' ps ss.
Proof.
  intros Hn Hh Ht Hm [Hl Hhd Htl _]. split; [by rewrite Hn | congruence | congruence | done].
Qed.

(** The node under the cursor. *)
Lemma cursor_node p ps ss i :
  playlist p ps ss → cursor_at p ps i →
  ∃ a s, ps !! i = Some a ∧ ss !! i = Some s ∧ current p = Some a ∧
         nodes p !! a = Some (mkNode s (ps !! S i) (before ps i)).
Proof.
  intros Hp [Hi Hc].
  destruct (lookup_lt_is_Some_2 ps i Hi) as [a Ha].
  destruct (links_node _ _ _ (playlist_links _ _ _ Hp) _ _ Ha) as (s & Hs & Hn).
  exists a, s. split_and!; try done. congruence.
Qed.

(** Where [Next] and [Prev] put the cursor. *)
Lemma clamp_next p ps ss i :
  playlist p ps ss → (i < length ps)%nat →
  clamp (ps !! S i) (tail p) = ps !! Nat.min (S i) (length ps - 1).
Proof.
  intros Hp Hi. rewrite (playlist_tail _ _ _ Hp), last_lookup.
  destruct (ps !! S i) as [n|] eqn:E; unfold clamp.
  - pose proof (lookup_lt_Some _ _ _ E).
    replace (Nat.min (S i) (length ps - 1)) with (S i) by lia. done.
  - apply lookup_ge_None in E.
    replace (Nat.min (S i) (length ps - 1)) with (Nat.pred (length ps)) by lia.
    done.
Qed.

Lemma clamp_prev p ps ss i :
  playlist p ps ss → (i < length ps)%nat →
  clamp (before ps i) (head p) = ps !! Nat.pred i.
Proof.
  intros Hp Hi. rewrite (playlist_head _ _ _ Hp).
  destruct i as [|j]; simpl; [done|].
  destruct (ps !! j) as [b|] eqn:E; [done|].
  apply lookup_ge_None in E. lia.
Qed.

(** A sound player with a goroutine parked has nodes and a cursor on one. *)
Lemma sound_parked_cursor p ps ss :
  sound p ps ss → parked p ≠ [] → ∃ i, cursor_at p ps i.
Proof.
  intros [_ Hc _ He] Hq. destruct Hc as [[Hps _]|Hc]; [|done].
  by destruct (Hq (He Hps)).
Qed.

Lemma sound_frame p p' ps ss :
  nodes p' = nodes p → head p' = head p → tail p' = tail p → mu p' = false →
  current p' = current p → parked p' = parked p → isPlaying p' = isPlaying p →
  sound p ps ss → sound p' ps ss.
Proof.
  intros Hn Hh Ht Hm Hc Hq Hi [Hp Hcur Htim Hemp]. split.
  - by apply (playlist_frame p).
  - unfold cursor_at in *. by rewrite Hc.
  - by rewrite Hi, Hq.
  - by rewrite Hq.
Qed.

(** What [NewPlayer] returns is sound, with nothing playing, nobody parked
    and the cursor on the head. *)
Lemma NewPlayer_sound songs :
  ∃ p ps,
    NewPlayer songs = Ret (Some p, nil) p ∧ sound p ps songs ∧
    isPlaying p = false ∧ parked p = [] ∧ current p = head p ∧ playedTime p = 0.
Proof.
  destruct (NewPlayer_playlist songs) as (p & ps & Hnew & _ & Hp & Hc & Hq & Hi & Ht).
  exists p, ps. split_and!; try done.
  split; [done| |congruence|done].
  rewrite Hc, (playlist_head _ _ _ Hp).
  destruct ps as [|a ps']; [by left|]. right. exists 0%nat. split; simpl; [lia|].
  by rewrite Hc, (playlist_head _ _ _ Hp).
Qed.

(** ** Each step keeps a sound player sound, or blocks *)

(** The [Play] that ends [Next] and [Prev], with the cursor on the [j]-th
    node, and the stopped goroutine's case after it: the song is started
    from its beginning and [isPlaying] is cleared again.  If the duration
    of the song is negative, [Play] calls [Next], which waits for the mutex
    its caller holds. *)
Lemma restart_at fuel now ctx p ps ss t q j a s :
  playlist p ps ss → ps !! j = Some a → ss !! j = Some s →
  deferred_unlock (lands_after t StopRecv (Play (S (S fuel)) now ctx))
    (stopped_at (Some a) q p) =
    if Duration s <? 0 then Blocked (stopped_at (Some a) q p)
    else Ret nil (skipped_to (Some a) q (mkTimer ctx now (Int64.wrap (Duration s))) p).
Proof.
  intros Hp Ha Hs.
  destruct (links_node _ _ _ (playlist_links _ _ _ Hp) _ _ Ha) as (s' & Hs' & Hn).
  assert (s' = s) as -> by congruence.
  unfold deferred_unlock, lands_after, mbind, M_bind, bind. rewrite Play_cases. simpl.
  rewrite Hn. simpl. destruct (Duration s <? 0).
  - by rewrite Next_locked.
  - unfold Int64.sub. rewrite Z.sub_0_r. simpl. f_equal.
    pose proof (playlist_mu _ _ _ Hp). unfold skipped_to. destruct p; simpl in *. by subst.
Qed.

(** [Next] on a player with a goroutine parked. *)
Lemma Next_parked fuel now ctx p ps ss t q i s :
  playlist p ps ss → parked p = t :: q → cursor_at p ps i →
  ss !! Nat.min (S i) (length ps - 1) = Some s →
  Next (S (S (S fuel))) now ctx p =
    if Duration s <? 0
    then Blocked (stopped_at (ps !! Nat.min (S i) (length ps - 1)) q p)
    else Ret nil (skipped_to (ps !! Nat.min (S i) (length ps - 1)) q
                    (mkTimer ctx now (Int64.wrap (Duration s))) p).
Proof.
  intros Hp Hq Hi Hs.
  destruct (cursor_node _ _ _ _ Hp Hi) as (a & s0 & Ha & Hs0 & Hc & Hn).
  pose proof (clamp_next _ _ _ _ Hp (proj1 Hi)) as Hcl.
  remember (Nat.min (S i) (length ps - 1)) as j eqn:Ej.
  rewrite Next_cases, (playlist_mu _ _ _ Hp), Hq, Hc. simpl.
  rewrite Hn. simpl. rewrite Hcl.
  destruct (lookup_lt_is_Some_2 ps j) as [b Hb].
  { destruct Hi. lia. }
  by rewrite Hb, (restart_at fuel now ctx p ps ss t q _ b s Hp Hb Hs).
Qed.

(** [Prev] on a player with a goroutine parked. *)
Lemma Prev_parked fuel now ctx p ps ss t q i s :
  playlist p ps ss → parked p = t :: q → cursor_at p ps i →
  ss !! Nat.pred i = Some s →
  Prev (S (S (S fuel))) now ctx p =
    if Duration s <? 0
    then Blocked (stopped_at (ps !! Nat.pred i) q p)
    else Ret nil (skipped_to (ps !! Nat.pred i) q
                    (mkTimer ctx now (Int64.wrap (Duration s))) p).
Proof.
  intros Hp Hq Hi Hs.
  destruct (cursor_node _ _ _ _ Hp Hi) as (a & s0 & Ha & Hs0 & Hc & Hn).
  pose proof (clamp_prev _ _ _ _ Hp (proj1 Hi)) as Hcl.
  remember (Nat.pred i) as j eqn:Ej.
  rewrite Prev_cases, (playlist_mu _ _ _ Hp), Hq, Hc. simpl.
  rewrite Hn. simpl. rewrite Hcl.
  destruct (lookup_lt_is_Some_2 ps j) as [b Hb].
  { destruct Hi. lia. }
  by rewrite Hb, (restart_at fuel now ctx p ps ss t q _ b s Hp Hb Hs).
Qed.

Lemma skipped_to_sound p ps ss q t' j :
  sound p ps ss → (j < length ps)%nat → sound (skipped_to (ps !! j) q t' p) ps ss.
Proof.
  intros [Hp _ _ _] Hj. split.
  - by apply (playlist_frame p); try apply Hp.
  - right. by exists j.
  - done.
  - intros ->. simpl in Hj. lia.
Qed.

Lemma Next_sound fuel now ctx p ps ss :
  sound p ps ss →
  (∃ p', Next (S (S (S fuel))) now ctx p = Ret nil p' ∧ sound p' ps ss ∧
         isPlaying p' = false) ∨
  (∃ p', Next (S (S (S fuel))) now ctx p = Blocked p').
Proof.
  intros Hs. pose proof (sound_playlist _ _ _ Hs) as Hp.
  destruct (parked p) as [|t q] eqn:Hq.
  { right. rewrite Next_no_receiver by (done || apply Hp). eauto. }
  destruct (sound_parked_cursor p ps ss Hs) as [i Hi]; [by rewrite Hq|].
  remember (Nat.min (S i) (length ps - 1)) as j eqn:Ej.
  assert (j < length ps)%nat as Hj by (destruct Hi; lia).
  destruct (lookup_lt_is_Some_2 ss j) as [s Hsj].
  { by rewrite (links_length _ _ _ (playlist_links _ _ _ Hp)). }
  rewrite (Next_parked fuel now ctx p ps ss t q i s Hp Hq Hi) by (by rewrite <- Ej).
  rewrite <- Ej. destruct (Duration s <? 0); [right; eauto|left].
  eexists. split; [done|]. split; [by apply skipped_to_sound|done].
Qed.

Lemma Prev_sound fuel now ctx p ps ss :
  sound p ps ss →
  (∃ p', Prev (S (S (S fuel))) now ctx p = Ret nil p' ∧ sound p' ps ss ∧
         isPlaying p' = false) ∨
  (∃ p', Prev (S (S (S fuel))) now ctx p = Blocked p').
Proof.
  intros Hs. pose proof (sound_playlist _ _ _ Hs) as Hp.
  destruct (parked p) as [|t q] eqn:Hq.
  { right. rewrite Prev_no_receiver by (done || apply Hp). eauto. }
  destruct (sound_parked_cursor p ps ss Hs) as [i Hi]; [by rewrite Hq|].
  remember (Nat.pred i) as j eqn:Ej.
  assert (j < length ps)%nat as Hj by (destruct Hi; lia).
  destruct (lookup_lt_is_Some_2 ss j) as [s Hsj].
  { by rewrite (links_length _ _ _ (playlist_links _ _ _ Hp)). }
  rewrite (Prev_parked fuel now ctx p ps ss t q i s Hp Hq Hi) by (by rewrite <- Ej).
  rewrite <- Ej. destruct (Duration s <? 0); [right; eauto|left].
  eexists. split; [done|]. split; [by apply skipped_to_sound|done].
Qed.

Lemma Play_sound now ctx p ps ss :
  sound p ps ss →
  (∃ p', Play depth now ctx p = Ret nil p' ∧ sound p' ps ss) ∨
  (∃ p', Play depth now ctx p = Blocked p').
Proof.
  intros Hs. pose proof Hs as [Hp Hc Ht He]. unfold depth. rewrite Play_cases.
  destruct Hc as [[-> Hc]|[i Hi]].
  { rewrite Hc. left. by exists p. }
  destruct (cursor_node _ _ _ _ Hp Hi) as (a & s & Ha & Hss & Hc & Hn).
  rewrite Hc. destruct (isPlaying p) eqn:Hpl; [left; by exists p|].
  rewrite Hn. simpl. destruct (Duration s <? playedTime p).
  - destruct (Next_sound 0 now ctx p ps ss Hs) as [(p' & -> & Hs' & _)|(p' & ->)];
      [left|right]; eauto.
  - left. eexists. split; [done|]. split.
    + by apply (playlist_frame p); try apply Hp.
    + right. by exists i.
    + intros _. simpl. by destruct (parked p).
    + intros ->. destruct Hi as [Hi _]. simpl in Hi. lia.
Qed.

Lemma Pause_sound now ctx p ps ss :
  sound p ps ss →
  ∃ p', Pause now ctx p = Ret nil p' ∧ sound p' ps ss ∧ isPlaying p' = false.
Proof.
  intros Hs. pose proof Hs as [Hp Hc Ht He]. rewrite Pause_cases.
  rewrite (playlist_mu _ _ _ Hp).
  destruct (isPlaying p) eqn:Hpl; [|by exists p].
  destruct (parked p) as [|t q] eqn:Hq; [by destruct (Ht eq_refl)|].
  eexists. split; [done|]. split; [|done]. split.
  - by apply (playlist_frame p); try apply Hp.
  - done.
  - done.
  - intros Hps. by specialize (He Hps).
Qed.

Lemma AddSong_sound ctx s p ps ss :
  sound p ps ss →
  ∃ a p', nodes p !! a = None ∧ AddSong ctx s p = Ret nil p' ∧
          sound p' (ps ++ [a]) (ss ++ [s]) ∧
          current p' = (match head p with Some _ => current p | None => Some a end) ∧
          parked p' = parked p ∧ isPlaying p' = isPlaying p ∧
          playedTime p' = playedTime p.
Proof.
  intros [Hp Hc Ht He].
  destruct (AddSong_playlist ctx s p ps ss Hp)
    as (a & p' & Ha & Hadd & Hp' & _ & Hc' & Hq' & Hi' & Ht').
  exists a, p'. split_and!; try done. split; [done| | |].
  - right. unfold cursor_at. rewrite Hc', (playlist_head _ _ _ Hp).
    destruct Hc as [[-> _]|[i [Hi Hci]]].
    + exists 0%nat. split; simpl; [lia|done].
    + exists i. split; [rewrite length_app; lia|].
      destruct (ps !! 0%nat) eqn:E0.
      * by rewrite lookup_app_l.
      * apply lookup_ge_None in E0. lia.
  - by rewrite Hi', Hq'.
  - intros E. by destruct ps.
Qed.

(** The end of a track for the [i]-th parked goroutine of a player whose
    cursor is on the [k]-th node: playback moves on to the next song, or
    stops with the cursor back on the head. *)
Lemma expire_at p ps ss t i k :
  playlist p ps ss → parked p !! i = Some t → cursor_at p ps k →
  expire i p =
    match ss !! S k with
    | Some s =>
        Ret tt (set_parked
                  (delete i (parked p) ++
                     [mkTimer (t_ctx t) (startPlaying t) (Int64.wrap (Duration s))])
                  (set_current (ps !! S k) (set_playedTime 0 p)))
    | None =>
        Ret tt (set_current (head p)
                  (set_isPlaying false
                     (set_playedTime 0 (set_parked (delete i (parked p)) p))))
    end.
Proof.
  intros Hp Hq Hk.
  destruct (cursor_node _ _ _ _ Hp Hk) as (a & s0 & Ha & Hs0 & Hc & Hn).
  pose proof (playlist_links _ _ _ Hp) as Hl.
  unfold expire, wake_up. rewrite Hq.
  rewrite resume_AfterFired. simpl. rewrite Hc. simpl. rewrite Hn. simpl.
  destruct (ps !! S k) as [n|] eqn:En.
  - destruct (links_node _ _ _ Hl _ _ En) as (s & -> & ->). done.
  - apply lookup_ge_None in En. rewrite <- (links_length _ _ _ Hl) in En.
    apply lookup_ge_None in En. by rewrite En.
Qed.

Lemma expire_sound i p ps ss :
  sound p ps ss → ∃ p', expire i p = Ret tt p' ∧ sound p' ps ss.
Proof.
  intros Hs. pose proof Hs as [Hp Hc Ht He].
  destruct (parked p !! i) as [t|] eqn:Hq;
    [|exists p; unfold expire, wake_up; by rewrite Hq].
  destruct (sound_parked_cursor p ps ss Hs) as [k Hk].
  { intros E. by rewrite E in Hq. }
  rewrite (expire_at p ps ss t i k Hp Hq Hk).
  destruct (ss !! S k) as [s|] eqn:Es; (eexists; split; [done|]); split.
  - by apply (playlist_frame p); try apply Hp.
  - right. exists (S k). split; [|done]. apply lookup_lt_Some in Es.
    by rewrite <- (links_length _ _ _ (playlist_links _ _ _ Hp)).
  - intros _. simpl. by destruct (delete i (parked p)).
  - intros ->. destruct Hk as [Hk _]. simpl in Hk. lia.
  - by apply (playlist_frame p); try apply Hp.
  - right. exists 0%nat. destruct Hk as [Hk _]. split; [lia|].
    simpl. apply Hp.
  - done.
  - intros ->. destruct Hk as [Hk _]. simpl in Hk. lia.
Qed.

(** A cancellation, case by case: the goroutines holding the context leave
    the queue and each clears [isPlaying] and [playedTime]. *)
Lemma cancel_cases ctx p :
  cancel ctx p =
    Ret tt (match filter (λ t, t_ctx t = ctx) (parked p) with
            | [] => set_parked (filter (λ t, t_ctx t ≠ ctx) (parked p)) p
            | _ :: _ =>
                set_playedTime 0
                  (set_isPlaying false
                     (set_parked (filter (λ t, t_ctx t ≠ ctx) (parked p)) p))
            end).
Proof.
  unfold cancel.
  generalize (set_parked (filter (λ t, t_ctx t ≠ ctx) (parked p)) p).
  generalize (filter (λ t, t_ctx t = ctx) (parked p)). intros hit.
  assert (∀ q, foldr (λ t m, resume t CtxDone ;; m) (ret tt) hit
                 (set_playedTime 0 (set_isPlaying false q)) =
               Ret tt (set_playedTime 0 (set_isPlaying false q))) as H.
  { induction hit as [|t hit IH]; intros q; [done|]. simpl.
    unfold mbind, M_bind, bind. simpl. apply (IH (set_playedTime 0 (set_isPlaying false q))). }
  destruct hit as [|t hit]; intros q; [done|]. simpl.
  unfold mbind, M_bind, bind. simpl. apply H.
Qed.

Lemma filter_none_all (ctx : Context) (l : list timer) :
  filter (λ t, t_ctx t = ctx) l = [] → filter (λ t, t_ctx t ≠ ctx) l = l.
Proof.
  induction l as [|t l IH]; [done|]. rewrite !filter_cons.
  destruct (decide (t_ctx t = ctx)); [done|]. intros H.
  rewrite decide_True by done. by rewrite IH.
Qed.

Lemma cancel_sound ctx p ps ss :
  sound p ps ss → ∃ p', cancel ctx p = Ret tt p' ∧ sound p' ps ss.
Proof.
  intros Hs. pose proof Hs as [Hp Hc Ht He]. rewrite cancel_cases.
  eexists. split; [done|].
  destruct (filter (λ t, t_ctx t = ctx) (parked p)) as [|t hit] eqn:E.
  - rewrite (filter_none_all _ _ E). apply (sound_frame p); try done. apply Hp.
  - split.
    + by apply (playlist_frame p); try apply Hp.
    + done.
    + done.
    + intros Hps. simpl. by rewrite (He Hps).
Qed.

(** A step from a sound player returns a sound player, or blocks. *)
Lemma step_sound c p ps ss :
  sound p ps ss →
  (∃ p' a, step c p = Ret tt p' ∧
           sound p' (ps ++ match c with CallAddSong _ _ => [a] | _ => [] end)
                    (ss ++ match c with CallAddSong _ s => [s] | _ => [] end)) ∨
  (∃ p', step c p = Blocked p').
Proof.
  intros Hs. destruct c as [now ctx|now ctx|ctx s|now ctx|now ctx|i|ctx];
    unfold step, depth, mbind, M_bind, bind; rewrite ?app_nil_r.
  - destruct (Play_sound now ctx _ _ _ Hs) as [(p' & Hr & Hs')|(p' & Hr)];
      unfold depth in Hr; rewrite Hr; [left; by exists p', 1%positive|right; eauto].
  - destruct (Pause_sound now ctx _ _ _ Hs) as (p' & -> & Hs' & _).
    left. by exists p', 1%positive.
  - destruct (AddSong_sound ctx s _ _ _ Hs) as (a & p' & _ & -> & Hs' & _).
    left. by exists p', a.
  - destruct (Next_sound 1 now ctx _ _ _ Hs) as [(p' & -> & Hs' & _)|(p' & ->)];
      [left; by exists p', 1%positive|right; eauto].
  - destruct (Prev_sound 1 now ctx _ _ _ Hs) as [(p' & -> & Hs' & _)|(p' & ->)];
      [left; by exists p', 1%positive|right; eauto].
  - destruct (expire_sound i _ _ _ Hs) as (p' & -> & Hs').
    left. by exists p', 1%positive.
  - destruct (cancel_sound ctx _ _ _ Hs) as (p' & -> & Hs').
    left. by exists p', 1%positive.
Qed.

(** ** Runs of the machine *)

Lemma bind_Ret {A B} (m : M A) (k : A → M B) p a p' :
  m p = Ret a p' → (m ≫= k) p = k a p'.
Proof. intros H. unfold mbind, M_bind, bind. by rewrite H. Qed.

Lemma bind_Blocked {A B} (m : M A) (k : A → M B) p p' :
  m p = Blocked p' → (m ≫= k) p = Blocked p'.
Proof. intros H. unfold mbind, M_bind, bind. by rewrite H. Qed.

Lemma steps_sound cs p ps ss :
  sound p ps ss →
  (∃ p' ps', steps cs p = Ret tt p' ∧ sound p' (ps ++ ps') (ss ++ songs_added cs)) ∨
  (∃ p', steps cs p = Blocked p').
Proof.
  revert p ps ss. induction cs as [|c cs IH]; intros p ps ss Hs.
  { left. exists p, []. by rewrite !app_nil_r. }
  change (steps (c :: cs)) with (step c ;; steps cs).
  destruct (step_sound c p ps ss Hs) as [(p1 & a & Hc & Hs1)|(p1 & Hc)].
  - rewrite (bind_Ret _ _ _ _ _ Hc).
    destruct (IH _ _ _ Hs1) as [(p2 & ps2 & Hcs & Hs2)|(p2 & Hcs)]; [|right; eauto].
    left. exists p2. eexists. split; [done|].
    change (songs_added (c :: cs)) with
      (match c with CallAddSong _ s => [s] | _ => [] end ++ songs_added cs).
    rewrite <- !app_assoc in Hs2. exact Hs2.
  - right. rewrite (bind_Blocked _ _ _ _ Hc). eauto.
Qed.

Lemma run_sound songs cs p0 p :
  NewPlayer songs = Ret (Some p0, nil) p0 → steps cs p0 = Ret tt p →
  ∃ ps, sound p ps (songs ++ songs_added cs).
Proof.
  intros Hnew Hrun.
  destruct (NewPlayer_sound songs) as (p0' & ps0 & Hnew' & Hs0 & _).
  assert (p0' = p0) as -> by congruence.
  destruct (steps_sound cs p0 ps0 songs Hs0) as [(p' & ps' & Hrun' & Hs')|(p' & Hrun')];
    [|congruence].
  assert (p' = p) as -> by congruence. eauto.
Qed.

Lemma reachable_sound p : reachable p → ∃ ps ss, sound p ps ss.
Proof.
  intros (songs & cs & p0 & Hnew & Hrun).
  destruct (run_sound _ _ _ _ Hnew Hrun) as [ps Hs]. eauto.
Qed.

Lemma sound_forward p ps ss : sound p ps ss → forward p = ps.
Proof. intros [Hp _ _ _]. by eapply forward_playlist. Qed.

Lemma demo_run_returns : steps demo_run Fixture.two_songs = Ret tt after_demo_run.
Proof. vm_compute. reflexivity. Qed.

(** X1.  No step loses, repeats or reorders a track: after any run of
    calls and events on the player [NewPlayer] built, the walk from the head
    meets the songs given to [NewPlayer] followed by the songs given to
    [AddSong], in order; the walk back from the tail meets the same nodes in
    reverse; the head has no [prev] and the tail no [next]. *)
Theorem run_keeps_songs (songs : list Song) (cs : list call) (p0 p : playerImpl) :
  NewPlayer songs = Ret (Some p0, nil) p0 →
  steps cs p0 = Ret tt p →
  tracks p (forward p) = Some <$> (songs ++ songs_added cs) ∧
  backward p = reverse (forward p) ∧
  link_of prev p (head p) = None ∧
  link_of next p (tail p) = None.
Proof.
  intros Hnew Hrun. destruct (run_sound _ _ _ _ Hnew Hrun) as [ps [Hp _ _ _]].
  rewrite (forward_playlist _ _ _ Hp), (backward_playlist _ _ _ Hp).
  destruct (playlist_ends _ _ _ Hp). split_and!; try done.
  by apply tracks_playlist.
Qed.

Lemma run_keeps_songs_witness :
  tracks after_demo_run (forward after_demo_run) =
    Some <$> ([Fixture.sg; Fixture.ap] ++ songs_added demo_run) ∧
  backward after_demo_run = reverse (forward after_demo_run) ∧
  link_of prev after_demo_run (head after_demo_run) = None ∧
  link_of next after_demo_run (tail after_demo_run) = None.
Proof.
  apply (run_keeps_songs [Fixture.sg; Fixture.ap] demo_run Fixture.two_songs after_demo_run);
    vm_compute; reflexivity.
Defined.

(** X2.  The cursor of a reachable player is nil only if the playlist is
    empty, and otherwise is one of the nodes the walk from the head meets. *)
Theorem reachable_cursor (p : playerImpl) :
  reachable p →
  match current p with
  | None => forward p = []
  | Some a => a ∈ forward p
  end.
Proof.
  intros Hr. destruct (reachable_sound p Hr) as (ps & ss & Hs).
  rewrite (sound_forward _ _ _ Hs). destruct Hs as [Hp [[-> ->]|[i [Hi Hc]]] _ _]; [done|].
  rewrite Hc. destruct (ps !! i) as [a|] eqn:E.
  - by eapply list_elem_of_lookup_2.
  - apply lookup_ge_None in E. lia.
Qed.

Lemma reachable_cursor_witness :
  match current after_demo_run with
  | None => forward after_demo_run = []
  | Some a => a ∈ forward after_demo_run
  end.
Proof.
  apply (reachable_cursor after_demo_run).
  exists [Fixture.sg; Fixture.ap], demo_run, Fixture.two_songs.
  split; vm_compute; reflexivity.
Defined.


Lemma steps_app cs cs' p :
  steps (cs ++ cs') p = (steps cs ;; steps cs') p.
Proof.
  revert p. induction cs as [|c cs IH]; intros p; [done|].
  simpl. unfold mbind, M_bind, bind.
  by destruct (step c p) as [[] p1| |p1|].
Qed.

Lemma reachable_step c p p' : reachable p → step c p = Ret tt p' → reachable p'.
Proof.
  intros (songs & cs & p0 & Hnew & Hrun) Hc.
  exists songs, (cs ++ [c]), p0. split; [done|].
  rewrite steps_app, (bind_Ret _ _ _ _ _ Hrun). simpl.
  by rewrite (bind_Ret _ _ _ _ _ Hc).
Qed.

Lemma reachable_playing_two_songs : reachable playing_two_songs.
Proof.
  exists [Fixture.sg; Fixture.ap], [CallPlay 0 Background], Fixture.two_songs.
  split; vm_compute; reflexivity.
Qed.

Lemma reachable_skipped_two_songs : reachable skipped_two_songs.
Proof.
  exists [Fixture.sg; Fixture.ap],
    [CallPlay 0 Background; CallNext 0 Background], Fixture.two_songs.
  split; vm_compute; reflexivity.
Qed.







(** X6.  [AddSong] on a reachable player, playing or not, always returns
    nil: the new node, holding the song, comes last in the walk from the
    head; the cursor moves (onto the new node) only if the playlist was
    empty; [isPlaying], [playedTime] and the parked goroutine are as
    before. *)
Theorem AddSong_reachable (ctx : Context) (s : Song) (p : playerImpl) :
  reachable p →
  ∃ a p',
    AddSong ctx s p = Ret nil p' ∧
    reachable p' ∧
    forward p' = forward p ++ [a] ∧
    song_at p' (Some a) = Some s ∧
    current p' = (match current p with Some c => Some c | None => Some a end) ∧
    parked p' = parked p ∧ isPlaying p' = isPlaying p ∧
    playedTime p' = playedTime p.
Proof.
  intros Hr. destruct (reachable_sound p Hr) as (ps & ss & Hs).
  destruct (AddSong_sound ctx s p ps ss Hs)
    as (a & p' & Ha & Hadd & Hs' & Hc' & Hq' & Hi' & Ht').
  exists a, p'. rewrite (sound_forward _ _ _ Hs), (sound_forward _ _ _ Hs').
  split_and!; try done.
  - apply (reachable_step (CallAddSong ctx s) p); [done|].
    simpl. by rewrite (bind_Ret _ _ _ _ _ Hadd).
  - pose proof (song_at_index p' _ _ (length ps) (sound_playlist _ _ _ Hs')) as Hsa.
    rewrite list_lookup_middle in Hsa by done.
    rewrite list_lookup_middle in Hsa; [done|].
    symmetry. apply (links_length _ _ _ (playlist_links _ _ _ (sound_playlist _ _ _ Hs))).
  - rewrite Hc', (playlist_head _ _ _ (sound_playlist _ _ _ Hs)).
    destruct Hs as [_ [[-> ->]|[i [Hi Hc]]] _ _]; [done|].
    rewrite Hc. destruct (lookup_lt_is_Some_2 ps i Hi) as [b ->].
    destruct ps; [simpl in Hi; lia|done].
Qed.

Lemma AddSong_reachable_witness :
  ∃ a p',
    AddSong Background Fixture.second_song playing_two_songs = Ret nil p' ∧
    reachable p' ∧
    forward p' = forward playing_two_songs ++ [a] ∧
    song_at p' (Some a) = Some Fixture.second_song ∧
    current p' = (match current playing_two_songs with Some c => Some c | None => Some a end) ∧
    parked p' = parked playing_two_songs ∧
    isPlaying p' = isPlaying playing_two_songs ∧
    playedTime p' = playedTime playing_two_songs.
Proof.
  apply (AddSong_reachable Background Fixture.second_song playing_two_songs).
  exists [Fixture.sg; Fixture.ap], [CallPlay 0 Background], Fixture.two_songs.
  split; vm_compute; reflexivity.
Defined.


Lemma reachable_at p i :
  reachable p → (i < length (forward p))%nat → current p = forward p !! i →
  ∃ ss, sound p (forward p) ss ∧ cursor_at p (forward p) i.
Proof.
  intros Hr Hi Hc. destruct (reachable_sound p Hr) as (ps & ss & Hs).
  rewrite (sound_forward _ _ _ Hs) in *. by exists ss.
Qed.





(** ** Songs that end *)

Lemma expire_advances p ps ss t i s :
  playlist p ps ss → parked p = [t] → cursor_at p ps i → ss !! S i = Some s →
  let t' := mkTimer (t_ctx t) (startPlaying t) (Int64.wrap (Duration s)) in
  let p' := set_parked [t'] (set_current (ps !! S i) (set_playedTime 0 p)) in
  expire 0 p = Ret tt p' ∧ playlist p' ps ss ∧ parked p' = [t'] ∧ cursor_at p' ps (S i).
Proof.
  intros Hp Hq Hi Hsi t' p'.
  assert (parked p !! 0%nat = Some t) as Hq0 by (by rewrite Hq).
  pose proof (expire_at p ps ss t 0 i Hp Hq0 Hi) as He. rewrite Hsi, Hq in He.
  split_and!; try done.
  - apply (playlist_frame p); try done. apply Hp.
  - split; [|done]. apply lookup_lt_Some in Hsi.
    by rewrite <- (links_length _ _ _ (playlist_links _ _ _ Hp)).
Qed.

Lemma expirations_advance ps ss k :
  ∀ p t i s,
    playlist p ps ss → parked p = [t] → cursor_at p ps i → ss !! (i + S k)%nat = Some s →
    expirations (S k) p =
      Ret tt (set_parked [mkTimer (t_ctx t) (startPlaying t) (Int64.wrap (Duration s))]
                (set_current (ps !! (i + S k)%nat) (set_playedTime 0 p))).
Proof.
  induction k as [|k IH]; intros p t i s Hs Ht Hi Hsk.
  - replace (i + 1)%nat with (S i) in * by lia.
    destruct (expire_advances p ps ss t i s Hs Ht Hi Hsk) as (He & _).
    change (expirations 1) with (expire 0 ;; ret tt).
    by rewrite (bind_Ret _ _ _ _ _ He).
  - destruct (lookup_lt_is_Some_2 ss (S i)) as [s1 Hs1].
    { apply lookup_lt_Some in Hsk. lia. }
    destruct (expire_advances p ps ss t i s1 Hs Ht Hi Hs1) as (He & Hs' & Ht' & Hi').
    change (expirations (S (S k))) with (expire 0 ;; expirations (S k)).
    rewrite (bind_Ret _ _ _ _ _ He).
    replace (i + S (S k))%nat with (S i + S k)%nat in * by lia.
    by rewrite (IH _ _ (S i) s Hs' Ht' Hi' Hsk).
Qed.

Lemma expirations_end ps ss n :
  ∀ p t i,
    playlist p ps ss → parked p = [t] → cursor_at p ps i → (length ps - i = S n)%nat →
    expirations (S n) p =
      Ret tt (set_current (head p)
                (set_isPlaying false (set_playedTime 0 (set_parked [] p)))).
Proof.
  induction n as [|n IH]; intros p t i Hs Ht Hi Hn.
  - assert (parked p !! 0%nat = Some t) as Hq0 by (by rewrite Ht).
    pose proof (expire_at p ps ss t 0 i Hs Hq0 Hi) as He.
    rewrite (proj2 (lookup_ge_None ss (S i))), Ht in He.
    + change (expirations 1) with (expire 0 ;; ret tt).
      by rewrite (bind_Ret _ _ _ _ _ He).
    + rewrite (links_length _ _ _ (playlist_links _ _ _ Hs)). lia.
  - destruct (lookup_lt_is_Some_2 ss (S i)) as [s1 Hs1].
    { rewrite (links_length _ _ _ (playlist_links _ _ _ Hs)). lia. }
    destruct (expire_advances p ps ss t i s1 Hs Ht Hi Hs1) as (He & Hs' & Ht' & Hi').
    change (expirations (S (S n))) with (expire 0 ;; expirations (S n)).
    rewrite (bind_Ret _ _ _ _ _ He).
    rewrite (IH _ _ (S i) Hs' Ht' Hi') by lia. done.
Qed.

(** X9.  Left alone, a reachable player on which exactly one goroutine is
    parked goes through its playlist, whatever [isPlaying] says: after
    [k + 1] tracks have ended, the cursor is [k + 1] nodes further, the same
    goroutine (same context, same [startPlaying]) is parked for the whole
    duration of the song there and [playedTime] is zero; when the last
    track has ended, [isPlaying] is false, nobody is parked and the cursor
    is back on the head. *)
Theorem plays_to_the_end (p : playerImpl) (t : timer) (i k : nat) :
  reachable p →
  parked p = [t] →
  (i < length (forward p))%nat →
  current p = forward p !! i →
  (∀ s, song_at p (forward p !! (i + S k)%nat) = Some s →
     expirations (S k) p =
       Ret tt (set_parked [mkTimer (t_ctx t) (startPlaying t) (Int64.wrap (Duration s))]
                 (set_current (forward p !! (i + S k)%nat) (set_playedTime 0 p)))) ∧
  expirations (length (forward p) - i) p =
    Ret tt (set_current (head p)
              (set_isPlaying false (set_playedTime 0 (set_parked [] p)))).
Proof.
  intros Hr Hq Hi Hc.
  destruct (reachable_at p i Hr Hi Hc) as (ss & Hs & Hcur).
  pose proof (sound_playlist _ _ _ Hs) as Hp.
  split.
  - intros s Hsong. apply (expirations_advance _ ss k p t i s Hp Hq Hcur).
    by rewrite <- (song_at_index p _ ss _ Hp).
  - destruct (length (forward p) - i)%nat as [|n] eqn:En; [lia|].
    by apply (expirations_end _ ss n p t i Hp Hq Hcur).
Qed.

Lemma plays_to_the_end_witness :
  expirations 1 playing_two_songs =
    Ret tt (set_parked [mkTimer Background 0 (30 * Time.Second)]
              (set_current (Some 2%positive) (set_playedTime 0 playing_two_songs))) ∧
  expirations 2 playing_two_songs =
    Ret tt (set_current (Some 1%positive)
              (set_isPlaying false (set_playedTime 0 (set_parked [] playing_two_songs)))).
Proof.
  assert (reachable playing_two_songs) as Hr.
  { exists [Fixture.sg; Fixture.ap], [CallPlay 0 Background], Fixture.two_songs.
    split; vm_compute; reflexivity. }
  destruct (plays_to_the_end playing_two_songs
              (mkTimer Background 0 (100 * Time.Millisecond)) 0 0 Hr eq_refl)
    as [H1 H2]; [vm_compute; lia | vm_compute; reflexivity|].
  split; [apply (H1 Fixture.ap); vm_compute; reflexivity | exact H2].
Defined.

(** ** Play, then pause or cancel *)

Lemma song_at_current p s :
  song_at p (current p) = Some s →
  ∃ c cn, current p = Some c ∧ nodes p !! c = Some cn ∧ song cn = s.
Proof.
  unfold song_at. destruct (current p) as [c|]; [|done]. simpl.
  destruct (nodes p !! c) as [cn|] eqn:E; [|done]. simpl. intros [= <-].
  by exists c, cn.
Qed.

(** [Play] on an idle player whose [playedTime] does not exceed the song
    under the cursor. *)
Lemma Play_starts fuel now ctx p s :
  isPlaying p = false → parked p = [] →
  song_at p (current p) = Some s → playedTime p ≤ Duration s →
  Play (S fuel) now ctx p =
    Ret nil (set_parked [mkTimer ctx now (Int64.sub (Duration s) (playedTime p))]
               (set_isPlaying true p)).
Proof.
  intros Hi Hq Hs Hle. destruct (song_at_current p s Hs) as (c & cn & Hc & Hn & <-).
  rewrite Play_cases, Hc, Hi, Hn, Hq.
  by rewrite (proj2 (Z.ltb_ge _ _)) by lia.
Qed.





(** ** Skipping with no goroutine to stop *)



(** ** Pausing after the track changed *)

Lemma Since_in_range start now : Int64.in_range (Time.Since start now).
Proof. unfold Int64.in_range, Time.Since, Int64.min_int, Int64.max_int. lia. Qed.

(** X14.  The goroutine keeps the [startPlaying] of the [Play] that started
    it when it moves on to the next track.  So when a track ends on a
    reachable player with [isPlaying] set and exactly one goroutine parked,
    and [Pause] follows at clock [now], the cursor is on the next node and
    [playedTime] is the time since that [Play], the tracks that ended
    before included, not the time spent in the new track. *)
Theorem Pause_after_advance (now : Z) (ctx : Context) (p : playerImpl)
    (t : timer) (i : nat) (s : Song) :
  reachable p →
  isPlaying p = true →
  parked p = [t] →
  (i < length (forward p))%nat →
  current p = forward p !! i →
  song_at p (forward p !! S i) = Some s →
  (expire 0 ;; Pause now ctx) p =
    Ret nil (set_parked []
               (set_isPlaying false
                  (set_current (forward p !! S i)
                     (set_playedTime (Time.Since (startPlaying t) now) p)))).
Proof.
  intros Hr Hpl Hq Hi Hc Hsong.
  destruct (reachable_at p i Hr Hi Hc) as (ss & Hs & Hcur).
  pose proof (sound_playlist _ _ _ Hs) as Hp.
  rewrite (song_at_index p _ ss _ Hp) in Hsong.
  destruct (expire_advances p _ ss t i s Hp Hq Hcur Hsong) as (He & _).
  rewrite (bind_Ret _ _ _ _ _ He), Pause_cases. simpl.
  rewrite (playlist_mu _ _ _ Hp), Hpl.
  unfold Int64.add. rewrite Z.add_0_l, wrap_small by apply Since_in_range.
  done.
Qed.

Lemma Pause_after_advance_witness :
  (expire 0 ;; Pause (150 * Time.Millisecond) Background) playing_two_songs =
    Ret nil (set_parked []
               (set_isPlaying false
                  (set_current (Some 2%positive)
                     (set_playedTime (150 * Time.Millisecond) playing_two_songs)))).
Proof.
  apply (Pause_after_advance (150 * Time.Millisecond) Background playing_two_songs
           (mkTimer Background 0 (100 * Time.Millisecond)) 0 Fixture.ap).
  - exists [Fixture.sg; Fixture.ap], [CallPlay 0 Background], Fixture.two_songs.
    split; vm_compute; reflexivity.
  - reflexivity.
  - reflexivity.
  - vm_compute. lia.
  - vm_compute. reflexivity.
  - vm_compute. reflexivity.
Defined.

(** ** Appending while the last track plays *)

(** X16.  A song appended while the only goroutine of a reachable player
    waits for the end of the last track is played next: without the append
    the end of the track clears [isPlaying] and puts the cursor back on the
    head; after [AddSong] the end of the track moves the cursor onto the
    new node and the goroutine goes on with the new song. *)
Theorem appended_song_plays_next (ctx : Context) (s : Song) (p : playerImpl) (t : timer) :
  reachable p →
  parked p = [t] →
  current p = tail p →
  expire 0 p =
    Ret tt (set_current (head p)
              (set_isPlaying false (set_playedTime 0 (set_parked [] p)))) ∧
  ∃ a p1,
    AddSong ctx s p = Ret nil p1 ∧
    song_at p1 (Some a) = Some s ∧
    expire 0 p1 =
      Ret tt (set_parked [mkTimer (t_ctx t) (startPlaying t) (Int64.wrap (Duration s))]
                (set_current (Some a) (set_playedTime 0 p1))).
Proof.
  intros Hr Hq Hc. destruct (reachable_sound p Hr) as (ps & ss & Hs).
  pose proof (sound_playlist _ _ _ Hs) as Hp.
  pose proof (links_length _ _ _ (playlist_links _ _ _ Hp)) as Hlen.
  assert (ps ≠ []) as Hne.
  { intros E. apply (sound_empty _ _ _ Hs) in E. congruence. }
  assert (0 < length ps)%nat as Hpos by (destruct ps; simpl; [done|lia]).
  assert (cursor_at p ps (Nat.pred (length ps))) as Hcur.
  { split; [lia|]. by rewrite Hc, (playlist_tail _ _ _ Hp), last_lookup. }
  assert (parked p !! 0%nat = Some t) as Hq0 by (by rewrite Hq).
  split.
  - rewrite (expire_at p ps ss t 0 _ Hp Hq0 Hcur), Hq.
    rewrite (proj2 (lookup_ge_None ss _)); [done|lia].
  - destruct (AddSong_sound ctx s p ps ss Hs)
      as (a & p1 & Ha & Hadd & Hs1 & Hc1 & Hq1 & Hi1 & _).
    exists a, p1. split; [done|].
    assert (cursor_at p1 (ps ++ [a]) (Nat.pred (length ps))) as Hcur1.
    { split; [rewrite length_app; lia|].
      rewrite Hc1, (playlist_head _ _ _ Hp).
      destruct (lookup_lt_is_Some_2 ps 0 Hpos) as [h ->].
      rewrite lookup_app_l by lia. apply Hcur. }
    assert (S (Nat.pred (length ps)) = length ps) as El by lia.
    assert (parked p1 !! 0%nat = Some t) as Hq10 by (by rewrite Hq1, Hq).
    split.
    + pose proof (song_at_index p1 _ _ (length ps) (sound_playlist _ _ _ Hs1)) as Hsa.
      rewrite list_lookup_middle in Hsa by done.
      by rewrite list_lookup_middle in Hsa.
    + rewrite (expire_at p1 _ _ t 0 _ (sound_playlist _ _ _ Hs1) Hq10 Hcur1), Hq1, Hq.
      rewrite El. rewrite (list_lookup_middle ss [] s) by done.
      by rewrite (list_lookup_middle ps [] a) by done.
Qed.

Lemma appended_song_plays_next_witness :
  expire 0 playing_last_song =
    Ret tt (set_current (Some 1%positive)
              (set_isPlaying false
                 (set_playedTime 0 (set_parked [] playing_last_song)))) ∧
  ∃ a p1,
    AddSong Background Fixture.second_song playing_last_song = Ret nil p1 ∧
    song_at p1 (Some a) = Some Fixture.second_song ∧
    expire 0 p1 =
      Ret tt (set_parked [mkTimer Background 0 (Int64.wrap Time.Second)]
                (set_current (Some a) (set_playedTime 0 p1))).
Proof.
  apply (appended_song_plays_next Background Fixture.second_song playing_last_song
           (mkTimer Background 0 (30 * Time.Second))); try reflexivity.
  exists [Fixture.sg; Fixture.ap],
    [CallPlay 0 Background; Expire 0], Fixture.two_songs.
  split; vm_compute; reflexivity.
Defined.

(** ** Playback never rewrites the playlist *)

Lemma same_playlist_refl p : same_playlist p p.
Proof. by split_and!. Qed.

Lemma same_playlist_trans p1 p2 p3 :
  same_playlist p1 p2 → same_playlist p2 p3 → same_playlist p1 p3.
Proof. intros (? & ? & ?) (? & ? & ?). split_and!; congruence. Qed.

Lemma resume_same_playlist t w p p' :
  resume t w p = Ret tt p' → same_playlist p p'.
Proof.
  destruct w; try (intros [= <-]; by split_and!).
  rewrite resume_AfterFired. destruct (_ ≫= _) as [cn|]; [|done].
  destruct (next cn) as [n|]; [|intros [= <-]; by split_and!].
  destruct (nodes p !! n); [|done]. intros [= <-]. by split_and!.
Qed.

Lemma lands_after_same_playlist {A} t w (m : M A) p0 p a p' :
  same_playlist p0 p →
  (∀ a1 p1, m p = Ret a1 p1 → same_playlist p p1) →
  deferred_unlock (lands_after t w m) p = Ret a p' → same_playlist p0 p'.
Proof.
  intros H0 Hm. unfold deferred_unlock, lands_after, mbind, M_bind, bind.
  destruct (m p) as [a1 p1| |p1|] eqn:E; try done.
  destruct (resume t w p1) as [[] p2| |p2|] eqn:E2; try done.
  simpl. intros [= <- <-].
  apply (same_playlist_trans _ p); [done|].
  apply (same_playlist_trans _ p1); [by apply (Hm a1)|].
  apply (same_playlist_trans _ p2); [by apply (resume_same_playlist t w)|].
  by split_and!.
Qed.

Lemma Play_Next_same_playlist fuel now ctx :
  (∀ p e p', Play fuel now ctx p = Ret e p' → same_playlist p p') ∧
  (∀ p e p', Next fuel now ctx p = Ret e p' → same_playlist p p').
Proof.
  induction fuel as [|fuel [IHP IHN]]; [by split|]. split; intros p e p'.
  - rewrite Play_cases.
    destruct (current p) as [c|]; [|intros [= <- <-]; apply same_playlist_refl].
    destruct (isPlaying p); [intros [= <- <-]; apply same_playlist_refl|].
    destruct (nodes p !! c) as [cn|]; [|done].
    destruct (Duration (song cn) <? playedTime p); [apply IHN|].
    intros [= <- <-]. by split_and!.
  - rewrite Next_cases. destruct (mu p); [done|].
    destruct (parked p) as [|t q]; [done|]. destruct (_ ≫= _) as [cn|]; [|done].
    apply lands_after_same_playlist; [by split_and!|]. intros a1 p1. apply IHP.
Qed.

Lemma Prev_same_playlist fuel now ctx p e p' :
  Prev fuel now ctx p = Ret e p' → same_playlist p p'.
Proof.
  destruct fuel as [|fuel]; [done|]. rewrite Prev_cases. destruct (mu p); [done|].
  destruct (parked p) as [|t q]; [done|]. destruct (_ ≫= _) as [cn|]; [|done].
  apply lands_after_same_playlist; [by split_and!|]. intros a1 p1.
  apply (proj1 (Play_Next_same_playlist fuel now ctx)).
Qed.

Lemma cancel_same_playlist ctx p p' :
  cancel ctx p = Ret tt p' → same_playlist p p'.
Proof.
  unfold cancel. generalize (filter (λ t, t_ctx t = ctx) (parked p)).
  generalize (filter (λ t, t_ctx t ≠ ctx) (parked p)). intros others hit.
  assert (∀ q, foldr (λ t m, resume t CtxDone ;; m) (ret tt) hit q = Ret tt p' →
               same_playlist q p') as H.
  { induction hit as [|t hit IH]; intros q; simpl.
    - intros [= <-]. apply same_playlist_refl.
    - unfold mbind, M_bind, bind. simpl. intros E. apply IH in E.
      destruct E as (? & ? & ?). by split_and!. }
  intros E. apply H in E. destruct E as (? & ? & ?). by split_and!.
Qed.

(** X15.  Only [AddSong] changes the playlist.  Whatever the player, if a
    step other than a call of [AddSong] returns, the nodes with their songs
    and links, [head] and [tail] are exactly as before: [Play], [Pause],
    [Next], [Prev], the end of a track and a cancellation move the cursor
    and change the playback state at most. *)
Theorem playback_keeps_playlist (c : call) (p p' : playerImpl) :
  (∀ ctx s, c ≠ CallAddSong ctx s) →
  step c p = Ret tt p' →
  nodes p' = nodes p ∧ head p' = head p ∧ tail p' = tail p.
Proof.
  intros Hc. change (step c p = Ret tt p' → same_playlist p p').
  destruct c as [now ctx|now ctx|ctx s|now ctx|now ctx|i|ctx];
    unfold step, mbind, M_bind, bind.
  - destruct (Play depth now ctx p) as [e p1| |p1|] eqn:E; try done.
    intros [= <-]. by apply (proj1 (Play_Next_same_playlist _ _ _)) in E.
  - rewrite Pause_cases. destruct (mu p); [done|].
    destruct (isPlaying p); [|intros [= <-]; apply same_playlist_refl].
    destruct (parked p); [done|]. intros [= <-]. by split_and!.
  - by destruct (Hc ctx s).
  - destruct (Next depth now ctx p) as [e p1| |p1|] eqn:E; try done.
    intros [= <-]. by apply (proj2 (Play_Next_same_playlist _ _ _)) in E.
  - destruct (Prev depth now ctx p) as [e p1| |p1|] eqn:E; try done.
    intros [= <-]. by apply Prev_same_playlist in E.
  - unfold expire, wake_up. destruct (parked p !! i) as [t|];
      [|intros [= <-]; apply same_playlist_refl].
    intros E. apply resume_same_playlist in E. destruct E as (? & ? & ?).
    by split_and!.
  - apply cancel_same_playlist.
Qed.

Lemma playback_keeps_playlist_witness :
  nodes skipped_two_songs = nodes playing_two_songs ∧
  head skipped_two_songs = head playing_two_songs ∧
  tail skipped_two_songs = tail playing_two_songs.
Proof.
  apply (playback_keeps_playlist (CallNext 0 Background)
           playing_two_songs skipped_two_songs); [done|].
  vm_compute. reflexivity.
Defined.

(** ** Played time and duration *)

Lemma song_at_nodes p p' a : nodes p' = nodes p → song_at p' a = song_at p a.
Proof. intros H. unfold song_at. by rewrite H. Qed.

Lemma step_in_time c p ps ss p' :
  sound p ps ss → in_time p → Forall (λ s, 0 ≤ Duration s) ss →
  step c p = Ret tt p' → in_time p'.
Proof.
  intros Hs Hin Hnn. pose proof (sound_playlist _ _ _ Hs) as Hp.
  pose proof (playlist_mu _ _ _ Hp) as Hm.
  destruct c as [now ctx|now ctx|ctx s|now ctx|now ctx|i|ctx];
    unfold step, mbind, M_bind, bind.
  - destruct (Play depth now ctx p) as [e p1| |p1|] eqn:E; try done.
    intros [= <-]. unfold depth in E. rewrite Play_cases in E.
    destruct (current p) as [c|] eqn:Ec; [|by injection E as _ <-].
    destruct (isPlaying p) eqn:Ei; [by injection E as _ <-|].
    destruct (nodes p !! c) as [cn|] eqn:En; [|done].
    destruct (Z.ltb_spec (Duration (song cn)) (playedTime p)) as [Hlt|Hle].
    + destruct (Next_sound 0 now ctx p ps ss Hs) as [(p2 & E2 & _ & Hi2)|(p2 & E2)];
        rewrite E2 in E; [|done].
      injection E as _ <-. intros ?. congruence.
    + injection E as _ <-. intros _. exists (song cn). split; [|done].
      unfold song_at. simpl. rewrite Ec. simpl. by rewrite En.
  - destruct (Pause_sound now ctx p ps ss Hs) as (p1 & -> & _ & Hi).
    intros [= <-] ?. congruence.
  - destruct (AddSong_sound ctx s p ps ss Hs)
      as (a & p1 & Ha & -> & Hs1 & Hc1 & Hq1 & Hi1 & Ht1).
    intros [= <-] Hpl. rewrite Hi1 in Hpl.
    destruct (Hin Hpl) as (s0 & Hs0 & Hle). exists s0. split; [|by rewrite Ht1].
    destruct (sound_cursor _ _ _ Hs) as [[_ Hcn]|[k [Hk Hck]]].
    { by rewrite Hcn in Hs0. }
    rewrite Hck, (song_at_index p ps ss k Hp) in Hs0.
    rewrite Hc1, (playlist_head _ _ _ Hp).
    destruct (ps !! 0%nat) eqn:E0; [|apply lookup_ge_None in E0; lia].
    rewrite Hck, <- (lookup_app_l ps [a]) by done.
    rewrite (song_at_index p1 _ _ k (sound_playlist _ _ _ Hs1)).
    rewrite lookup_app_l; [done|]. by apply lookup_lt_Some in Hs0.
  - destruct (Next_sound 1 now ctx p ps ss Hs) as [(p2 & E2 & _ & Hi2)|(p2 & E2)];
      unfold depth; rewrite E2; [|done].
    intros [= <-] ?. congruence.
  - destruct (Prev_sound 1 now ctx p ps ss Hs) as [(p2 & E2 & _ & Hi2)|(p2 & E2)];
      unfold depth; rewrite E2; [|done].
    intros [= <-] ?. congruence.
  - destruct (parked p !! i) as [t|] eqn:Hq;
      [|unfold expire, wake_up; rewrite Hq; by intros [= <-]].
    destruct (sound_parked_cursor p ps ss Hs) as [k Hk].
    { intros E. by rewrite E in Hq. }
    rewrite (expire_at p ps ss t i k Hp Hq Hk).
    destruct (ss !! S k) as [s|] eqn:Es; intros [= <-]; [|by intros ?].
    intros _. exists s. split.
    + simpl. rewrite (song_at_nodes p) by done.
      by rewrite (song_at_index p ps ss (S k) Hp).
    + simpl. by apply (Forall_lookup_1 _ _ _ _ Hnn Es).
  - rewrite cancel_cases.
    destruct (filter (λ t, t_ctx t = ctx) (parked p)) as [|t hit] eqn:E;
      intros [= <-]; [|by intros ?].
    intros Hpl. destruct (Hin Hpl) as (s & Hsong & Hle). by exists s.
Qed.

Lemma steps_in_time cs :
  ∀ p ps ss p',
    sound p ps ss → in_time p →
    Forall (λ s, 0 ≤ Duration s) (ss ++ songs_added cs) →
    steps cs p = Ret tt p' → in_time p'.
Proof.
  induction cs as [|c cs IH]; intros p ps ss p' Hs Hin Hnn; [by intros [= <-]|].
  change (steps (c :: cs)) with (step c ;; steps cs).
  change (songs_added (c :: cs)) with
    (match c with CallAddSong _ s => [s] | _ => [] end ++ songs_added cs) in Hnn.
  destruct (step_sound c p ps ss Hs) as [(p1 & a & Hc & Hs1)|(p1 & Hc)].
  - rewrite (bind_Ret _ _ _ _ _ Hc). rewrite app_assoc in Hnn.
    apply (IH p1 _ _ p' Hs1); [|done].
    apply (step_in_time c p ps ss p1 Hs Hin); [|done].
    apply Forall_app in Hnn as [Hnn _]. by apply Forall_app in Hnn as [Hnn _].
  - by rewrite (bind_Blocked _ _ _ _ Hc).
Qed.

(** X17.  If no song has a negative duration, then whenever [isPlaying] is
    set on a player reached by a run, the player has a current song and
    [playedTime] is at most the duration of that song. *)
Theorem played_time_within_duration (songs : list Song) (cs : list call)
    (p0 p : playerImpl) :
  NewPlayer songs = Ret (Some p0, nil) p0 →
  steps cs p0 = Ret tt p →
  Forall (λ s, 0 ≤ Duration s) (songs ++ songs_added cs) →
  isPlaying p = true →
  ∃ s, song_at p (current p) = Some s ∧ playedTime p ≤ Duration s.
Proof.
  intros Hnew Hrun Hnn.
  destruct (NewPlayer_sound songs) as (p0' & ps0 & Hnew' & Hs0 & Hi0 & _).
  assert (p0' = p0) as -> by congruence.
  apply (steps_in_time cs p0 ps0 songs p Hs0); [|done|done].
  intros ?. congruence.
Qed.

Lemma played_time_within_duration_witness :
  ∃ s, song_at playing_last_song (current playing_last_song) = Some s ∧
       playedTime playing_last_song ≤ Duration s.
Proof.
  apply (played_time_within_duration [Fixture.sg; Fixture.ap]
           [CallPlay 0 Background; Expire 0] Fixture.two_songs playing_last_song).
  - vm_compute. reflexivity.
  - vm_compute. reflexivity.
  - repeat constructor; vm_compute; discriminate.
  - reflexivity.
Defined.

(** ** Starting playback *)

(** X18.  [Play] on an idle player with a current song of which
    [playedTime] (not negative) is at most the duration: it returns nil
    with [isPlaying] set and one goroutine parked, which holds the context
    and the clock reading of the call and waits for what is left of the
    song, duration minus [playedTime].  Nothing else changes. *)
Theorem Play_starts_timer (now : Z) (ctx : Context) (p : playerImpl) (s : Song) :
  isPlaying p = false →
  parked p = [] →
  song_at p (current p) = Some s →
  0 ≤ playedTime p ≤ Duration s →
  Int64.in_range (Duration s) →
  Play depth now ctx p =
    Ret nil (set_parked [mkTimer ctx now (Duration s - playedTime p)]
               (set_isPlaying true p)) ∧
  0 ≤ Duration s - playedTime p ≤ Duration s.
Proof.
  intros Hi Hq Hs Hle Hr. split; [|lia]. unfold depth.
  rewrite (Play_starts 3 now ctx p s Hi Hq Hs) by lia.
  unfold Int64.sub. rewrite wrap_small; [done|].
  unfold Int64.in_range, Int64.min_int, Int64.max_int in *. lia.
Qed.

Lemma Play_starts_timer_witness :
  Play depth 0 Background Fixture.two_songs =
    Ret nil (set_parked [mkTimer Background 0 (Duration Fixture.sg - 0)]
               (set_isPlaying true Fixture.two_songs)) ∧
  0 ≤ Duration Fixture.sg - 0 ≤ Duration Fixture.sg.
Proof.
  apply (Play_starts_timer 0 Background Fixture.two_songs Fixture.sg);
    try reflexivity; vm_compute; split; discriminate.
Defined.


(** ** There and back *)



(** ** Play twice *)


